(** * Photo analyzer: the incremental analysis-and-cache pipeline

    A shallow embedding of [analysis.py], [db.py], [util.py] and
    [analyze_photos.py], and the properties of the cache pipeline proved
    over it.

    Conventions of the embedding.
    - A Python [float] that is a number is modelled by its exact value, a
      rational [Q].  Every score of the program is the variance of finitely
      many pixel values or a distance between points of an image, so it is
      finite and not a NaN; comparisons with the thresholds are comparisons
      of exact values.
    - A Python [str] is a [string], a Python [int] is a [Z]; a
      [numpy.int32] is a [Z] whose arithmetic keeps the low 32 bits.
    - The SQLite table [photo_analysis] is the list of its rows in scan
      order; [fetchone] returns the first row of a result.
    - A Python [set] of paths is a [gset string].
    - A call that can raise in one way only returns an [option], [None]
      for the exception.  A call on the database returns a [Result], which
      names the exception of [sqlite3], and a call that writes returns the
      store it leaves beside it: the store is the same before and after a
      statement that raises. *)

From Stdlib Require Import ZArith QArith Qround Lia Lqa.
From stdpp Require Import base list strings gmap sets sorting.

Local Open Scope Z_scope.
Set Warnings "-clear-no-such-hyp".

(** ** analysis.py *)
Module analysis.

(** Blur score thresholds *)
Definition BLUR_THRESHOLD_SHARP : Q := 150.
Definition BLUR_THRESHOLD_SOFT : Q := 50.

(** Centering thresholds (normalized distance from center) *)
Definition CENTER_THRESHOLD_WELL : Q := 15 # 100.
Definition CENTER_THRESHOLD_SOMEWHAT : Q := 35 # 100.

(** [a >= b] on floats. *)
Definition float_ge (a b : Q) : bool := Qle_bool b a.
(** [a <= b] on floats. *)
Definition float_le (a b : Q) : bool := Qle_bool a b.

Definition categorize_blur (blur_score : Q) : string :=
  if float_ge blur_score BLUR_THRESHOLD_SHARP then "sharp"
  else if float_ge blur_score BLUR_THRESHOLD_SOFT then "soft"
  else "blurry".

Definition categorize_centering (center_score : Q) : string :=
  if float_le center_score CENTER_THRESHOLD_WELL then "well_centered"
  else if float_le center_score CENTER_THRESHOLD_SOMEWHAT then "somewhat_centered"
  else "off_center".

(** A detection box [(x, y, w, h)] in pixel coordinates.  The components
    are the [numpy.int32] scalars of a row of [detectMultiScale]. *)
Definition BBox : Type := Z * Z * Z * Z.

(** The product of two [numpy.int32] scalars: the low 32 bits of the exact
    product, read as a signed number. *)
Definition int32_mul (a b : Z) : Z := (a * b + 2 ^ 31) mod 2 ^ 32 - 2 ^ 31.

(** The OpenCV and NumPy operations the module calls; their numerics are
    not part of this repository.  [imread] is [None] when [cv2.imread]
    returns [None]; [shape] is [(height, width)] of a decoded image;
    [laplacian_var] is [cv2.Laplacian(gray, CV_64F).var()];
    [face_cascade_empty] and [cat_cascade_empty] are the state of the two
    classifiers once [_load_cascades] has run. *)
Record Cv2 : Type := {
  Image : Type;
  Gray : Type;
  imread : string -> option Image;
  shape : Image -> Z * Z;
  cvtColor : Image -> Gray;
  laplacian_var : Gray -> Q;
  face_cascade_empty : bool;
  face_detectMultiScale : Gray -> list BBox;
  cat_cascade_empty : bool;
  cat_detectMultiScale : Gray -> list BBox;
  np_sqrt : Q -> Q
}.

(** Python's [round(x, ndigits)] on a float: the decimal with [ndigits]
    places nearest to the exact value of [x], a tie going to the even
    neighbour. *)
Definition round_half_even (q : Q) : Z :=
  let f := Qfloor q in
  match Qcompare (q - inject_Z f)%Q (1 # 2)%Q with
  | Lt => f
  | Gt => f + 1
  | Eq => if Z.even f then f else f + 1
  end.

Definition round (x : Q) (ndigits : nat) : Q :=
  let p := inject_Z (10 ^ Z.of_nat ndigits) in
  Qred (inject_Z (round_half_even (x * p)%Q) / p)%Q.

(** Python's [max(l, key=key)]: the first element of greatest key. *)
Definition max_by {A : Type} (key : A -> Z) (l : list A) : option A :=
  match l with
  | [] => None
  | x :: l' =>
      Some (fold_left (fun best y => if key best <? key y then y else best) l' x)
  end.

(** The dictionary [analyze_image] returns. *)
Record Analysis : Type := {
  width : Z;
  height : Z;
  blur_score : Q;
  blur_category : string;
  has_person : bool;
  has_pet : bool;
  center_score : Q;
  center_category : string
}.

Section with_cv2.
Variable cv2 : Cv2.

Definition calculate_blur_score (gray_image : Gray cv2) : Q :=
  laplacian_var cv2 gray_image.

Definition detect_faces (gray_image : Gray cv2) : list BBox :=
  if face_cascade_empty cv2 then []
  else face_detectMultiScale cv2 gray_image.

Definition detect_cat_faces (gray_image : Gray cv2) : list BBox :=
  if cat_cascade_empty cv2 then []
  else cat_detectMultiScale cv2 gray_image.

Definition calculate_center_score
    (bbox : BBox) (image_width image_height : Z) : Q :=
  let '(x, y, w, h) := bbox in
  let bbox_center_x := (inject_Z x + inject_Z w / 2)%Q in
  let bbox_center_y := (inject_Z y + inject_Z h / 2)%Q in
  let img_center_x := (inject_Z image_width / 2)%Q in
  let img_center_y := (inject_Z image_height / 2)%Q in
  let dx := ((bbox_center_x - img_center_x) / inject_Z image_width)%Q in
  let dy := ((bbox_center_y - img_center_y) / inject_Z image_height)%Q in
  np_sqrt cv2 (dx ^ 2 + dy ^ 2)%Q.

(** The key [d[2] * d[3]] is a product of [numpy.int32] scalars. *)
Definition get_largest_detection (detections : list BBox) : option BBox :=
  max_by (fun d : BBox => let '(_, _, w, h) := d in int32_mul w h) detections.

(** [None] is the [ValueError] raised when the image cannot be loaded. *)
Definition analyze_image (image_path : string) : option Analysis :=
  match imread cv2 image_path with
  | None => None
  | Some color_image =>
      let '(height, width) := shape cv2 color_image in
      let gray_image := cvtColor cv2 color_image in
      let blur_score := calculate_blur_score gray_image in
      let blur_category := categorize_blur blur_score in
      let faces := detect_faces gray_image in
      let cats := detect_cat_faces gray_image in
      let has_person := 0 <? Z.of_nat (length faces) in
      let has_pet := 0 <? Z.of_nat (length cats) in
      let all_detections := faces ++ cats in
      let largest := get_largest_detection all_detections in
      let center_score :=
        match largest with
        | Some largest => calculate_center_score largest width height
        | None => 0%Q
        end in
      let center_category := categorize_centering center_score in
      Some {| width := width;
              height := height;
              blur_score := round blur_score 2;
              blur_category := blur_category;
              has_person := has_person;
              has_pet := has_pet;
              center_score := round center_score 4;
              center_category := center_category |}
  end.
End with_cv2.

End analysis.

(** ** db.py *)
Module db.

(** The thirteen columns a caller supplies: the dictionary [data] passed to
    [upsert_analysis]. *)
Record Data : Type := {
  root : string;
  path : string;
  size_bytes : Z;
  mtime_ns : Z;
  width : Z;
  height : Z;
  blur_score : Q;
  blur_category : string;
  has_person : Z;
  has_pet : Z;
  center_score : Q;
  center_category : string;
  analyzed_at : string
}.

(** A row of [photo_analysis]: the [INTEGER PRIMARY KEY] column [id] and the
    thirteen data columns.  [dict(row)] has these fourteen keys. *)
Record Row : Type := { id : Z; cols : Data }.

(** The table, rows in scan order. *)
Definition Table : Type := list Row.

(** The exceptions of [sqlite3] that the statements of this module raise:
    [OverflowError] when a Python [int] bound to a parameter does not fit
    SQLite's [INTEGER]; [OperationalError] when a statement has too many
    parameters and when no rowid is left for a new row. *)
Inductive Error : Type :=
| OverflowError
| OperationalError.

(** The outcome of a call: the value returned, or the exception raised. *)
Inductive Result (A : Type) : Type :=
| Ok (a : A)
| Raise (e : Error).
Arguments Ok {A} a.
Arguments Raise {A} e.

(** What the SQLite library in use fixes.  [variable_number] is
    [SQLITE_LIMIT_VARIABLE_NUMBER], the most parameters [?] a statement may
    have.  [random_rowid] is the rowid SQLite ends up trying for a new row
    once the largest rowid is in use and it draws rowids at random. *)
Record Sqlite : Type := {
  variable_number : Z;
  random_rowid : Table -> Z
}.

(** A Python [int] can be bound to a parameter when it fits SQLite's
    [INTEGER], 64 bits with a sign. *)
Definition fits_int64 (n : Z) : bool := (- 2 ^ 63 <=? n) && (n <? 2 ^ 63).

(** [WHERE root = ? AND path = ?] *)
Definition same_key (root0 path0 : string) (r : Row) : bool :=
  bool_decide (root (cols r) = root0 ∧ path (cols r) = path0).

(** [WHERE root = ? AND path = ? AND size_bytes = ? AND mtime_ns = ?] *)
Definition same_key_fingerprint
    (root0 path0 : string) (size_bytes0 mtime_ns0 : Z) (r : Row) : bool :=
  bool_decide (root (cols r) = root0 ∧ path (cols r) = path0 ∧
               size_bytes (cols r) = size_bytes0 ∧ mtime_ns (cols r) = mtime_ns0).

(** [cursor.execute] raises [OverflowError] while it binds [size_bytes] or
    [mtime_ns] when one of them is outside 64 bits; else the result is the
    row [fetchone] returns, if any. *)
Definition get_cached_analysis
    (conn : Table) (root0 path0 : string) (size_bytes0 mtime_ns0 : Z)
    : Result (option Row) :=
  if fits_int64 size_bytes0 && fits_int64 mtime_ns0 then
    Ok (List.find (same_key_fingerprint root0 path0 size_bytes0 mtime_ns0) conn)
  else Raise OverflowError.

(** [UPDATE photo_analysis SET size_bytes = ?, ..., analyzed_at = ?]: the
    eleven assigned columns come from [data]; [id], [root] and [path] stay. *)
Definition set_columns (data : Data) (r : Row) : Row :=
  {| id := id r;
     cols := {| root := root (cols r);
                path := path (cols r);
                size_bytes := size_bytes data;
                mtime_ns := mtime_ns data;
                width := width data;
                height := height data;
                blur_score := blur_score data;
                blur_category := blur_category data;
                has_person := has_person data;
                has_pet := has_pet data;
                center_score := center_score data;
                center_category := center_category data;
                analyzed_at := analyzed_at data |} |}.

(** [... WHERE id = ?] *)
Definition update_where_id (id0 : Z) (data : Data) (conn : Table) : Table :=
  List.map (fun r => if bool_decide (id r = id0) then set_columns data r else r)
           conn.

(** The largest rowid of SQLite. *)
Definition MAX_ROWID : Z := 2 ^ 63 - 1.

(** The [id] SQLite gives to a row inserted without one: 1 in an empty
    table, else one more than the largest [id] in use; when the largest is
    [MAX_ROWID], a rowid drawn at random if it finds an unused one, and the
    error [SQLITE_FULL], an [OperationalError], if it does not. *)
Definition next_id (sqlite : Sqlite) (conn : Table) : Result Z :=
  match conn with
  | [] => Ok 1
  | r :: conn' =>
      let largest := fold_left Z.max (List.map id conn') (id r) in
      if largest <? MAX_ROWID then Ok (largest + 1)
      else
        let candidate := random_rowid sqlite conn in
        if bool_decide (candidate ∈ List.map id conn)
        then Raise OperationalError
        else Ok candidate
  end.

(** The six integers of [data] among the parameters of the [UPDATE] and of
    the [INSERT] can all be bound.  (The [id] of the [UPDATE] was read from
    the table, and the other parameters are texts and floats.) *)
Definition bindable (data : Data) : bool :=
  fits_int64 (size_bytes data) && fits_int64 (mtime_ns data) &&
  fits_int64 (width data) && fits_int64 (height data) &&
  fits_int64 (has_person data) && fits_int64 (has_pet data).

(** The table after the call, and [Ok tt] when the call returns.  When the
    [UPDATE] or the [INSERT] raises, no row is written and [conn.commit()]
    is not reached. *)
Definition upsert_analysis (sqlite : Sqlite) (conn : Table) (data : Data)
    : Table * Result unit :=
  match List.find (same_key (root data) (path data)) conn with
  | Some existing =>
      if bindable data
      then (update_where_id (id existing) data conn, Ok tt)
      else (conn, Raise OverflowError)
  | None =>
      if bindable data then
        match next_id sqlite conn with
        | Ok id0 => (conn ++ [ {| id := id0; cols := data |} ], Ok tt)
        | Raise e => (conn, Raise e)
        end
      else (conn, Raise OverflowError)
  end.

(** [ORDER BY path]: byte-wise comparison of the two texts. *)
Definition path_le (r1 r2 : Row) : Prop :=
  Is_true (String.leb (path (cols r1)) (path (cols r2))).

#[global] Instance path_le_dec : RelDecision path_le.
Proof. intros r1 r2. unfold path_le. apply _. Defined.

Definition get_all_analyses_for_root (conn : Table) (root0 : string)
    : list Row :=
  merge_sort path_le
    (List.filter (fun r => bool_decide (root (cols r) = root0)) conn).

(** [SELECT path FROM photo_analysis WHERE root = ?], as a set. *)
Definition db_paths (conn : Table) (root0 : string) : gset string :=
  list_to_set
    (List.map (fun r => path (cols r))
       (List.filter (fun r => bool_decide (root (cols r) = root0)) conn)).

(** [DELETE FROM photo_analysis WHERE root = ? AND path IN (?, ..., ?)] *)
Definition delete_where_root_and_path_in
    (root0 : string) (paths : gset string) (conn : Table) : Table :=
  List.filter
    (fun r => negb (bool_decide (root (cols r) = root0 ∧
                                 path (cols r) ∈ paths)))
    conn.

(** The table after the call, and the number returned.  The [DELETE] has
    one parameter for the root and one for each path to delete; with more
    parameters than SQLite allows, [cursor.execute] raises
    [OperationalError] and nothing is deleted. *)
Definition delete_missing_files
    (sqlite : Sqlite) (conn : Table) (root0 : string)
    (existing_paths : gset string) : Table * Result Z :=
  let paths_to_delete := db_paths conn root0 ∖ existing_paths in
  let deleted := Z.of_nat (size paths_to_delete) in
  if bool_decide (paths_to_delete = ∅) then (conn, Ok deleted)
  else if variable_number sqlite <? 1 + deleted
  then (conn, Raise OperationalError)
  else (delete_where_root_and_path_in root0 paths_to_delete conn, Ok deleted).

(** The key of a row: the pair [(root, path)]. *)
Definition key (r : Row) : string * string := (root (cols r), path (cols r)).

(** The invariant of the table: at most one row per [(root, path)]. *)
Definition unique_keys (conn : Table) : Prop := NoDup (List.map key conn).

(** The [PRIMARY KEY] constraint on [id], which SQLite enforces. *)
Definition primary_key (conn : Table) : Prop := NoDup (List.map id conn).

End db.

(** ** util.py *)
Module util.
Import Stdlib.Strings.Ascii.

(** *** Text

    The methods of [str] that [parse_extensions] calls, on text of ASCII
    characters (what an extension list is made of); a [str] is the [string]
    of its characters. *)

(** [c.isspace()]: tab, line feed, vertical tab, form feed, carriage
    return, the four separators [0x1c]..[0x1f], and the space. *)
Definition isspace (c : Ascii.ascii) : bool :=
  let n := Ascii.N_of_ascii c in
  ((9 <=? n) && (n <=? 13) || (28 <=? n) && (n <=? 32))%N.

(** [c.lower()] *)
Definition lower_char (c : Ascii.ascii) : Ascii.ascii :=
  let n := Ascii.N_of_ascii c in
  if ((65 <=? n) && (n <=? 90))%N then Ascii.ascii_of_N (n + 32) else c.

(** [s.lower()] *)
Fixpoint lower (s : string) : string :=
  match s with
  | EmptyString => EmptyString
  | String c s' => String (lower_char c) (lower s')
  end.

(** [s.lstrip()] *)
Fixpoint lstrip (s : string) : string :=
  match s with
  | EmptyString => EmptyString
  | String c s' => if isspace c then lstrip s' else s
  end.

(** [s.rstrip()] *)
Fixpoint rstrip (s : string) : string :=
  match s with
  | EmptyString => EmptyString
  | String c s' =>
      match rstrip s' with
      | EmptyString => if isspace c then EmptyString else String c EmptyString
      | r => String c r
      end
  end.

(** [s.strip()] *)
Definition strip (s : string) : string := rstrip (lstrip s).

(** [s.split(sep)] for a separator of one character. *)
Fixpoint split (sep : Ascii.ascii) (s : string) : list string :=
  match s with
  | EmptyString => [EmptyString]
  | String c s' =>
      if bool_decide (c = sep) then EmptyString :: split sep s'
      else
        match split sep s' with
        | piece :: pieces => String c piece :: pieces
        | [] => [String c EmptyString]
        end
  end.

(** [s.startswith('.')] *)
Definition startswith_dot (s : string) : bool :=
  match s with
  | String c _ => bool_decide (c = "."%char)
  | EmptyString => false
  end.

(** The body of [for ext in extensions_str.split(',')]. *)
Definition add_extension (extensions : gset string) (ext : string)
    : gset string :=
  let ext := lower (strip ext) in
  if bool_decide (ext = EmptyString) then extensions
  else
    let ext := if startswith_dot ext then ext else String "."%char ext in
    {[ ext ]} ∪ extensions.

Definition parse_extensions (extensions_str : string) : gset string :=
  fold_left add_extension (split ","%char extensions_str) ∅.

(** What the module asks of the operating system.  [walk] is the list
    [find_images] yields for a resolved root and a set of extensions, pairs
    [(absolute path, relative path)]; [stat] is [os.stat], [None] when it
    raises; [resolve], [exists_] and [is_dir] are the [pathlib] calls. *)
Record Os : Type := {
  resolve : string -> string;
  exists_ : string -> bool;
  is_dir : string -> bool;
  walk : string -> gset string -> list (string * string);
  stat : string -> option (Z * Z)
}.

Definition find_images (os : Os) (root_dir : string) (extensions : gset string)
    : list (string * string) :=
  walk os (resolve os root_dir) extensions.

(** [(st_size, st_mtime_ns)], or [None] for the [OSError]. *)
Definition get_file_stats (os : Os) (file_path : string) : option (Z * Z) :=
  stat os file_path.

End util.

(** ** analyze_photos.py *)
Module analyze_photos.

(** The dictionary of counters [process_images] returns. *)
Record Stats : Type := {
  total : Z;
  analyzed : Z;
  cached : Z;
  errors : Z;
  deleted : Z
}.

(** What the loop of [process_images] carries from one image to the next:
    the table behind [conn], the counters, the set [existing_paths] and the
    number of images handled so far (the argument of the clock). *)
Record Loop : Type := {
  conn : db.Table;
  stats : Stats;
  existing_paths : gset string;
  tick : nat
}.

Definition count_analyzed (s : Stats) : Stats :=
  {| total := total s; analyzed := analyzed s + 1; cached := cached s;
     errors := errors s; deleted := deleted s |}.

Definition count_cached (s : Stats) : Stats :=
  {| total := total s; analyzed := analyzed s; cached := cached s + 1;
     errors := errors s; deleted := deleted s |}.

Definition count_error (s : Stats) : Stats :=
  {| total := total s; analyzed := analyzed s; cached := cached s;
     errors := errors s + 1; deleted := deleted s |}.

Definition set_deleted (s : Stats) (n : Z) : Stats :=
  {| total := total s; analyzed := analyzed s; cached := cached s;
     errors := errors s; deleted := n |}.

Section with_world.
Variable sqlite : db.Sqlite.
Variable os : util.Os.
Variable cv2 : analysis.Cv2.
(** [datetime.now(timezone.utc).isoformat()] while the [n]-th image of
    the run is handled. *)
Variable now : nat -> string.

(** The record prepared for the database. *)
Definition make_record
    (root_path rel_path : string) (size_bytes mtime_ns : Z)
    (a : analysis.Analysis) (analyzed_at : string) : db.Data :=
  {| db.root := root_path;
     db.path := rel_path;
     db.size_bytes := size_bytes;
     db.mtime_ns := mtime_ns;
     db.width := analysis.width a;
     db.height := analysis.height a;
     db.blur_score := analysis.blur_score a;
     db.blur_category := analysis.blur_category a;
     db.has_person := if analysis.has_person a then 1 else 0;
     db.has_pet := if analysis.has_pet a then 1 else 0;
     db.center_score := analysis.center_score a;
     db.center_category := analysis.center_category a;
     db.analyzed_at := analyzed_at |}.

(** The body of [for abs_path, rel_path in progress_iter]: the path is
    added to [existing_paths], then the [try] block runs; an exception
    raised in it, by [os.stat], by [analyze_image] or by a call on the
    database, is counted and the loop goes on. *)
Definition process_one (root_path : string) (force : bool)
    (st : Loop) (image : string * string) : Loop :=
  let '(abs_path, rel_path) := image in
  let seen := {[ rel_path ]} ∪ existing_paths st in
  let failed (conn' : db.Table) :=
    {| conn := conn'; stats := count_error (stats st);
       existing_paths := seen; tick := S (tick st) |} in
  match util.get_file_stats os abs_path with
  | None => failed (conn st)
  | Some (size_bytes, mtime_ns) =>
      let hit :=
        if force then db.Ok None
        else db.get_cached_analysis (conn st) root_path rel_path
               size_bytes mtime_ns in
      match hit with
      | db.Raise _ => failed (conn st)
      | db.Ok (Some _) =>
          {| conn := conn st; stats := count_cached (stats st);
             existing_paths := seen; tick := S (tick st) |}
      | db.Ok None =>
          match analysis.analyze_image cv2 abs_path with
          | None => failed (conn st)
          | Some a =>
              let record :=
                make_record root_path rel_path size_bytes mtime_ns a
                  (now (tick st)) in
              match db.upsert_analysis sqlite (conn st) record with
              | (conn', db.Ok _) =>
                  {| conn := conn'; stats := count_analyzed (stats st);
                     existing_paths := seen; tick := S (tick st) |}
              | (conn', db.Raise _) => failed conn'
              end
          end
      end
  end.

(** [process_images]: the table after the call, and the counters when it
    returns.  The table [conn0] is what [init_db(db_path)] opens.  The call
    of [delete_missing_files] is outside every [try]: when it raises, so
    does [process_images]. *)
Definition process_images
    (conn0 : db.Table) (input_dir : string) (extensions : gset string)
    (force : bool) : db.Table * db.Result Stats :=
  let root_path := util.resolve os input_dir in
  let images := util.find_images os root_path extensions in
  let total_images := Z.of_nat (length images) in
  if total_images =? 0 then
    (conn0, db.Ok {| total := 0; analyzed := 0; cached := 0; errors := 0;
                     deleted := 0 |})
  else
    let st0 :=
      {| conn := conn0;
         stats := {| total := total_images; analyzed := 0; cached := 0;
                     errors := 0; deleted := 0 |};
         existing_paths := ∅;
         tick := O |} in
    let st := fold_left (process_one root_path force) images st0 in
    match db.delete_missing_files sqlite (conn st) root_path
            (existing_paths st) with
    | (conn1, db.Ok deleted) => (conn1, db.Ok (set_deleted (stats st) deleted))
    | (conn1, db.Raise e) => (conn1, db.Raise e)
    end.

(** The command-line arguments [main] uses, [extensions] already parsed. *)
Record Args : Type := {
  input_dir : string;
  extensions : gset string;
  force : bool
}.

(** [main] without [--summary-json]: the table after the run and the exit
    status.  An exception of [process_images] is caught and the status
    is 1.  Logging and printing are left out. *)
Definition main (conn0 : db.Table) (args : Args) : db.Table * Z :=
  if negb (util.exists_ os (input_dir args)) then (conn0, 1)
  else if negb (util.is_dir os (input_dir args)) then (conn0, 1)
  else
    match
      process_images conn0 (input_dir args) (extensions args) (force args)
    with
    | (conn1, db.Raise _) => (conn1, 1)
    | (conn1, db.Ok stats) => (conn1, if errors stats =? 0 then 0 else 1)
    end.
End with_world.

(** An object of the JSON summary. *)
Module summary.
Record Entry : Type := {
  path : string;
  size_bytes : Z;
  width : Z;
  height : Z;
  blur_score : Q;
  blur_category : string;
  has_person : bool;
  has_pet : bool;
  center_score : Q;
  center_category : string;
  analyzed_at : string
}.
End summary.

(** Python's [bool(n)] on an integer. *)
Definition bool_of_int (n : Z) : bool := negb (n =? 0).

(** [write_summary_json]: the array written to [output_path] and the number
    returned.  The table [conn] is what [init_db(db_path)] opens. *)
Definition write_summary_json (conn : db.Table) (root_path : string)
    : list summary.Entry * Z :=
  let records := db.get_all_analyses_for_root conn root_path in
  let output :=
    List.map
      (fun record =>
         {| summary.path := db.path (db.cols record);
            summary.size_bytes := db.size_bytes (db.cols record);
            summary.width := db.width (db.cols record);
            summary.height := db.height (db.cols record);
            summary.blur_score := db.blur_score (db.cols record);
            summary.blur_category := db.blur_category (db.cols record);
            summary.has_person := bool_of_int (db.has_person (db.cols record));
            summary.has_pet := bool_of_int (db.has_pet (db.cols record));
            summary.center_score := db.center_score (db.cols record);
            summary.center_category := db.center_category (db.cols record);
            summary.analyzed_at := db.analyzed_at (db.cols record) |})
      records in
  (output, Z.of_nat (length output)).

End analyze_photos.

(** ** compare_labels.py *)
Module compare_labels.

(** A human label, the JSON object of one photo in the labels file. *)
Record Label : Type := {
  has_person : bool;
  has_dog : bool;
  has_cat : bool;
  has_other_pet : bool;
  blur_category : string;
  center_category : string
}.

(** A confusion matrix [{'tp': .., 'fp': .., 'tn': .., 'fn': ..}]. *)
Record Confusion : Type := { tp : Z; fp : Z; tn : Z; fn : Z }.

(** The dictionary [categories]. *)
Record Categories : Type := { person : Confusion; cat : Confusion }.

(** The four lists of [mismatches] that [compare_results] fills. *)
Record Mismatches : Type := {
  person_fp : list string;
  person_fn : list string;
  cat_fp : list string;
  cat_fn : list string
}.

(** [run_automated_analysis], from the list [image_files] of the entries of
    the directory with an image suffix, each with its path and its name:
    the result of every image that [analyze_image] loads is stored under
    the name; an exception is printed and the loop goes on. *)
Definition run_automated_analysis (cv2 : analysis.Cv2)
    (image_files : list (string * string)) : gmap string analysis.Analysis :=
  fold_left
    (fun results image_file =>
       let '(image_path, name) := image_file in
       match analysis.analyze_image cv2 image_path with
       | Some result => <[ name := result ]> results
       | None => results
       end)
    image_files ∅.

(** The [if]/[elif] chain that adds one to a cell of a confusion matrix. *)
Definition count (human auto : bool) (c : Confusion) : Confusion :=
  if human && auto then
    {| tp := tp c + 1; fp := fp c; tn := tn c; fn := fn c |}
  else if negb human && negb auto then
    {| tp := tp c; fp := fp c; tn := tn c + 1; fn := fn c |}
  else if negb human && auto then
    {| tp := tp c; fp := fp c + 1; tn := tn c; fn := fn c |}
  else
    {| tp := tp c; fp := fp c; tn := tn c; fn := fn c + 1 |}.

(** The file name is appended to the list of false positives or of false
    negatives when the two answers differ. *)
Definition note (human auto : bool) (filename : string)
    (fps fns : list string) : list string * list string :=
  if human && auto then (fps, fns)
  else if negb human && negb auto then (fps, fns)
  else if negb human && auto then (fps ++ [filename], fns)
  else (fps, fns ++ [filename]).

(** The body of [for filename, human_label in human_labels.items()]. *)
Definition compare_one (auto_results : gmap string analysis.Analysis)
    (acc : Categories * Mismatches) (item : string * Label)
    : Categories * Mismatches :=
  let '(categories, mismatches) := acc in
  let '(filename, human_label) := item in
  match auto_results !! filename with
  | None => acc
  | Some auto_result =>
      let human_person := has_person human_label in
      let auto_person := analysis.has_person auto_result in
      let human_cat := has_cat human_label in
      let auto_cat := analysis.has_pet auto_result in
      let '(p_fp, p_fn) :=
        note human_person auto_person filename
          (person_fp mismatches) (person_fn mismatches) in
      let '(c_fp, c_fn) :=
        note human_cat auto_cat filename
          (cat_fp mismatches) (cat_fn mismatches) in
      ({| person := count human_person auto_person (person categories);
          cat := count human_cat auto_cat (cat categories) |},
       {| person_fp := p_fp; person_fn := p_fn;
          cat_fp := c_fp; cat_fn := c_fn |})
  end.

(** [compare_results]; [human_labels] is the labels dictionary as the list
    of its items, in the order of the file. *)
Definition compare_results (human_labels : list (string * Label))
    (auto_results : gmap string analysis.Analysis)
    : Categories * Mismatches :=
  fold_left (compare_one auto_results) human_labels
    ({| person := {| tp := 0; fp := 0; tn := 0; fn := 0 |};
        cat := {| tp := 0; fp := 0; tn := 0; fn := 0 |} |},
     {| person_fp := []; person_fn := []; cat_fp := []; cat_fn := [] |}).

End compare_labels.

(** ** Concrete inputs

    A small photo directory [/photos] and tables over it, used to run the
    definitions above. *)
Module examples.

(** Every decodable image is 640x480, has the Laplacian variance
    [149.997], and shows no face and no cat face; [bad.jpg] does not
    decode. *)
Definition cv2 : analysis.Cv2 :=
  {| analysis.Image := string;
     analysis.Gray := string;
     analysis.imread :=
       fun p => if bool_decide (p = "/photos/bad.jpg") then None else Some p;
     analysis.shape := fun _ => (480, 640);
     analysis.cvtColor := fun image => image;
     analysis.laplacian_var := fun _ => (149997 # 1000)%Q;
     analysis.face_cascade_empty := false;
     analysis.face_detectMultiScale := fun _ => [];
     analysis.cat_cascade_empty := false;
     analysis.cat_detectMultiScale := fun _ => [];
     analysis.np_sqrt := fun q => q |}.

(** A file system whose scan of any root yields [files]; every file has
    1000 bytes and the modification time 5, but [late.jpg], whose
    modification time in nanoseconds is [2 ^ 63], a date of the year
    2262. *)
Definition os (files : list (string * string)) : util.Os :=
  {| util.resolve := fun p => p;
     util.exists_ := fun _ => true;
     util.is_dir := fun _ => true;
     util.walk := fun _ _ => files;
     util.stat :=
       fun p => if bool_decide (p = "/photos/late.jpg")
                then Some (1000, 2 ^ 63) else Some (1000, 5) |}.

Definition clock (n : nat) : string := "2024-01-01T00:00:00+00:00".

(** An SQLite with the limit of 32766 parameters, which tries the rowid 42
    when it has to draw one. *)
Definition sqlite : db.Sqlite :=
  {| db.variable_number := 32766; db.random_rowid := fun _ => 42 |}.

(** An SQLite that allows a statement two parameters. *)
Definition sqlite_2 : db.Sqlite :=
  {| db.variable_number := 2; db.random_rowid := fun _ => 42 |}.

Definition a_jpg : string * string := ("/photos/a.jpg", "a.jpg").
Definition b_jpg : string * string := ("/photos/b.jpg", "b.jpg").
Definition bad_jpg : string * string := ("/photos/bad.jpg", "bad.jpg").
Definition c_jpg : string * string := ("/photos/c.jpg", "c.jpg").
Definition late_jpg : string * string := ("/photos/late.jpg", "late.jpg").

(** One run over [/photos] holding [files], from the table [conn]. *)
Definition run (files : list (string * string)) (force : bool)
    (conn : db.Table) : db.Table * db.Result analyze_photos.Stats :=
  analyze_photos.process_images sqlite (os files) cv2 clock conn "/photos" ∅
    force.

Definition data_a : db.Data :=
  {| db.root := "/photos"; db.path := "a.jpg";
     db.size_bytes := 1000; db.mtime_ns := 5;
     db.width := 640; db.height := 480;
     db.blur_score := 150; db.blur_category := "soft";
     db.has_person := 0; db.has_pet := 0;
     db.center_score := 0; db.center_category := "well_centered";
     db.analyzed_at := "2024-01-01T00:00:00+00:00" |}.

Definition data_b : db.Data :=
  {| db.root := "/photos"; db.path := "b.jpg";
     db.size_bytes := 2000; db.mtime_ns := 7;
     db.width := 800; db.height := 600;
     db.blur_score := 12; db.blur_category := "blurry";
     db.has_person := 1; db.has_pet := 0;
     db.center_score := 1 # 10; db.center_category := "well_centered";
     db.analyzed_at := "2023-12-31T00:00:00+00:00" |}.

Definition table_a : db.Table := [ {| db.id := 1; db.cols := data_a |} ].

(** A row left by an earlier run for [bad.jpg], when the file had another
    size and time. *)
Definition row_bad : db.Row :=
  {| db.id := 1;
     db.cols :=
       {| db.root := "/photos"; db.path := "bad.jpg";
          db.size_bytes := 900; db.mtime_ns := 3;
          db.width := 640; db.height := 480;
          db.blur_score := 200; db.blur_category := "sharp";
          db.has_person := 0; db.has_pet := 1;
          db.center_score := 0; db.center_category := "well_centered";
          db.analyzed_at := "2023-12-31T00:00:00+00:00" |} |}.

Definition args (force : bool) : analyze_photos.Args :=
  {| analyze_photos.input_dir := "/photos";
     analyze_photos.extensions := ∅;
     analyze_photos.force := force |}.

Definition table_ab : db.Table :=
  [ {| db.id := 1; db.cols := data_a |}; {| db.id := 2; db.cols := data_b |} ].

(** The record of [a.jpg] with a modification time of the year 2262. *)
Definition data_late : db.Data :=
  {| db.root := "/photos"; db.path := "a.jpg";
     db.size_bytes := 1000; db.mtime_ns := 2 ^ 63;
     db.width := 640; db.height := 480;
     db.blur_score := 150; db.blur_category := "soft";
     db.has_person := 0; db.has_pet := 0;
     db.center_score := 0; db.center_category := "well_centered";
     db.analyzed_at := "2024-01-01T00:00:00+00:00" |}.

(** A table whose row has the largest rowid. *)
Definition table_max : db.Table :=
  [ {| db.id := db.MAX_ROWID; db.cols := data_a |} ].

End examples.

(** ** Vocabulary of the properties *)

(** The centering score of a decoded image before it is rounded: the
    distance of the largest box from the centre, [0.0] when there is no
    box. *)
Definition raw_center_score (cv2 : analysis.Cv2)
    (color_image : analysis.Image cv2) : Q :=
  let gray_image := analysis.cvtColor cv2 color_image in
  match analysis.get_largest_detection
          (analysis.detect_faces cv2 gray_image
           ++ analysis.detect_cat_faces cv2 gray_image) with
  | Some largest =>
      analysis.calculate_center_score cv2 largest
        (snd (analysis.shape cv2 color_image))
        (fst (analysis.shape cv2 color_image))
  | None => 0%Q
  end.

(** The key of [get_largest_detection]: the area of the box as NumPy
    computes it, in 32 bits. *)
Definition area_key (d : analysis.BBox) : Z :=
  let '(_, _, w, h) := d in analysis.int32_mul w h.

(** The area of a detection box. *)
Definition area (d : analysis.BBox) : Z := let '(_, _, w, h) := d in w * h.

(** A box with sides of at most 46340 pixels, the largest whose square fits
    32 bits. *)
Definition small_box (d : analysis.BBox) : Prop :=
  let '(_, _, w, h) := d in 0 ≤ w ≤ 46340 ∧ 0 ≤ h ≤ 46340.

(** The number of photos a confusion matrix counts, [total] in
    [calculate_metrics]. *)
Definition matrix_total (c : compare_labels.Confusion) : Z :=
  compare_labels.tp c + compare_labels.fp c + compare_labels.tn c
  + compare_labels.fn c.

(** The names, in the order of the labels, of the labelled photos with an
    automated result where the label answers [human] and the result answers
    [auto]. *)
Definition disagreements
    (of_label : compare_labels.Label → bool)
    (of_result : analysis.Analysis → bool) (human auto : bool)
    (human_labels : list (string * compare_labels.Label))
    (auto_results : gmap string analysis.Analysis) : list string :=
  List.map fst
    (List.filter
       (fun item =>
          match auto_results !! fst item with
          | Some a =>
              Bool.eqb (of_label (snd item)) human
              && Bool.eqb (of_result a) auto
          | None => false
          end)
       human_labels).

(** The labelled photos that have an automated result. *)
Definition compared (human_labels : list (string * compare_labels.Label))
    (auto_results : gmap string analysis.Analysis)
    : list (string * compare_labels.Label) :=
  List.filter (fun item => bool_decide (is_Some (auto_results !! fst item)))
    human_labels.

(** The text has ASCII characters only. *)
Fixpoint is_ascii_text (s : string) : bool :=
  match s with
  | EmptyString => true
  | String c s' => (Ascii.N_of_ascii c <? 128)%N && is_ascii_text s'
  end.

(** The extension a piece of the list stands for, if any: stripped, in
    lower case, with a leading dot. *)
Definition extension_of (piece : string) : option string :=
  let ext := util.lower (util.strip piece) in
  if bool_decide (ext = EmptyString) then None
  else Some (if util.startswith_dot ext then ext
             else String (Ascii.ascii_of_N 46) ext).

(** The call returns. *)
Definition returns {A : Type} (outcome : db.Result A) : Prop :=
  ∃ a, outcome = db.Ok a.

(** The integers of the record made for a file of size [s] and time [m]
    from the result [a] all fit 64 bits: the size, the time, the width and
    the height (the two flags are 0 or 1). *)
Definition storable (s m : Z) (a : analysis.Analysis) : bool :=
  db.fits_int64 s && db.fits_int64 m &&
  db.fits_int64 (analysis.width a) && db.fits_int64 (analysis.height a).

(** The file cannot be processed: [os.stat] raises, or the image does not
    decode, or an integer of its record does not fit 64 bits (as the time
    in nanoseconds of a file dated after the year 2262), so that no
    statement can bind it. *)
Definition broken (os : util.Os) (cv2 : analysis.Cv2)
    (image : string * string) : Prop :=
  util.get_file_stats os (fst image) = None ∨
  analysis.analyze_image cv2 (fst image) = None ∨
  ∃ s m a, util.get_file_stats os (fst image) = Some (s, m) ∧
           analysis.analyze_image cv2 (fst image) = Some a ∧
           storable s m a = false.

(** Whether the file can be processed, as a test: [os.stat] succeeds, the
    image decodes and the integers of its record fit 64 bits. *)
Definition can_process (os : util.Os) (cv2 : analysis.Cv2)
    (image : string * string) : bool :=
  match util.get_file_stats os (fst image),
        analysis.analyze_image cv2 (fst image) with
  | Some (s, m), Some a => storable s m a
  | _, _ => false
  end.

(** The largest id in use, 0 in an empty table. *)
Definition largest_id (conn : db.Table) : Z :=
  match List.map db.id conn with
  | [] => 0
  | i :: ids => fold_left Z.max ids i
  end.

(** [n] more rows can be inserted before SQLite has to draw a rowid: the
    largest id in use is at least [n] below the largest rowid. *)
Definition room (conn : db.Table) (n : nat) : Prop :=
  largest_id conn + Z.of_nat n ≤ db.MAX_ROWID.

(** The table a call of [upsert_analysis] leaves when it returns, [id0]
    being the id of the row if it is new. *)
Definition written (id0 : Z) (conn : db.Table) (data : db.Data) : db.Table :=
  match List.find (db.same_key (db.root data) (db.path data)) conn with
  | Some existing => db.update_where_id (db.id existing) data conn
  | None => conn ++ [ {| db.id := id0; db.cols := data |} ]
  end.

(** The table a call of [delete_missing_files] leaves when it returns. *)
Definition reconciled (conn : db.Table) (root0 : string)
    (existing_paths : gset string) : db.Table :=
  db.delete_where_root_and_path_in root0
    (db.db_paths conn root0 ∖ existing_paths) conn.

(** The relative paths of a scan. *)
Definition rel_paths (images : list (string * string)) : list string :=
  List.map snd images.

(** The scan [process_images] makes of [input_dir]. *)
Definition scan (os : util.Os) (input_dir : string) (extensions : gset string)
    : list (string * string) :=
  util.find_images os (util.resolve os input_dir) extensions.

(** The paths the table stores for the root that are not paths of the
    scan. *)
Definition stale (conn : db.Table) (root_path : string)
    (images : list (string * string)) : gset string :=
  db.db_paths conn root_path ∖ list_to_set (rel_paths images).

(** The reconciliation after the scan can be done: there is no stale path,
    or the [DELETE], with one parameter for the root and one for each stale
    path, has no more parameters than SQLite allows. *)
Definition reconcilable (sqlite : db.Sqlite) (conn : db.Table)
    (root_path : string) (images : list (string * string)) : Prop :=
  stale conn root_path images = ∅ ∨
  1 + Z.of_nat (size (stale conn root_path images)) ≤ db.variable_number sqlite.

(** The next run without [force] will not analyze the image: its file cannot
    be processed, or the table holds a row with its current fingerprint. *)
Definition settled (os : util.Os) (cv2 : analysis.Cv2) (root_path : string)
    (conn : db.Table) (image : string * string) : Prop :=
  broken os cv2 image ∨
  ∃ s m r, util.get_file_stats os (fst image) = Some (s, m) ∧
           db.get_cached_analysis conn root_path (snd image) s m
           = db.Ok (Some r).



(** The state in which the loop of [process_images] starts. *)
Definition start (conn0 : db.Table) (total_images : Z) : analyze_photos.Loop :=
  {| analyze_photos.conn := conn0;
     analyze_photos.stats :=
       {| analyze_photos.total := total_images;
          analyze_photos.analyzed := 0; analyze_photos.cached := 0;
          analyze_photos.errors := 0; analyze_photos.deleted := 0 |};
     analyze_photos.existing_paths := ∅;
     analyze_photos.tick := O |}.

(** The state of [process_images] when its loop has ended and
    [delete_missing_files] has not yet run. *)
Definition after_loop (sqlite : db.Sqlite) (os : util.Os) (cv2 : analysis.Cv2)
    (now : nat → string) (conn0 : db.Table) (input_dir : string)
    (extensions : gset string) (force : bool) : analyze_photos.Loop :=
  fold_left
    (analyze_photos.process_one sqlite os cv2 now (util.resolve os input_dir)
       force)
    (scan os input_dir extensions)
    (start conn0 (Z.of_nat (length (scan os input_dir extensions)))).

(** * Properties *)

(** ** The store *)
Module db_facts.
Import db.

Example upsert_then_list_by_root :
  List.map (fun r => (id r, path (cols r)))
    (get_all_analyses_for_root
       (fst (upsert_analysis examples.sqlite
               (fst (upsert_analysis examples.sqlite [] examples.data_b))
               examples.data_a))
       "/photos")
  = [(2, "a.jpg"); (1, "b.jpg")].
Proof. by vm_compute. Qed.

(** A modification time of the year 2262 cannot be bound: the lookup and
    the upsert raise, and the table stays as it was. *)
Example late_time_cannot_be_bound :
  get_cached_analysis examples.table_a "/photos" "a.jpg" 1000 (2 ^ 63 - 1)
  = Ok None ∧
  get_cached_analysis examples.table_a "/photos" "a.jpg" 1000 (2 ^ 63)
  = Raise OverflowError ∧
  upsert_analysis examples.sqlite examples.table_a examples.data_late
  = (examples.table_a, Raise OverflowError).
Proof. by vm_compute. Qed.

(** After the largest rowid, a new row gets the rowid SQLite draws, if it
    is not in use. *)
Example insert_after_the_largest_rowid :
  upsert_analysis examples.sqlite examples.table_max examples.data_b
  = (examples.table_max ++ [ {| id := 42; cols := examples.data_b |} ], Ok tt) ∧
  upsert_analysis
    {| variable_number := 32766; random_rowid := fun _ => MAX_ROWID |}
    examples.table_max examples.data_b
  = (examples.table_max, Raise OperationalError).
Proof. by vm_compute. Qed.

(** With a limit of two parameters, one stale path is deleted and two are
    not. *)
Example delete_missing_files_limit :
  delete_missing_files examples.sqlite_2 examples.table_ab "/photos" {[ "a.jpg" ]}
  = ([ {| id := 1; cols := examples.data_a |} ], Ok 1) ∧
  delete_missing_files examples.sqlite_2 examples.table_ab "/photos" ∅
  = (examples.table_ab, Raise OperationalError) ∧
  delete_missing_files examples.sqlite examples.table_ab "/photos" ∅
  = ([], Ok 2).
Proof. by vm_compute. Qed.


Lemma same_key_true root0 path0 r :
  same_key root0 path0 r = true ↔ key r = (root0, path0).
Proof.
  unfold same_key, key. rewrite bool_decide_eq_true.
  split; [intros [-> ->]; reflexivity | intros [= -> ->]; auto].
Qed.

Lemma same_key_fingerprint_true root0 path0 s m r :
  same_key_fingerprint root0 path0 s m r = true ↔
  root (cols r) = root0 ∧ path (cols r) = path0 ∧
  size_bytes (cols r) = s ∧ mtime_ns (cols r) = m.
Proof. unfold same_key_fingerprint. apply bool_decide_eq_true. Qed.

Lemma same_key_fingerprint_key root0 path0 s m r :
  same_key_fingerprint root0 path0 s m r = true → key r = (root0, path0).
Proof.
  rewrite same_key_fingerprint_true. intros (<- & <- & _). reflexivity.
Qed.

(** *** Lookups *)

(** A lookup returns exactly when both integers can be bound, and then it
    returns the first matching row. *)
Lemma get_cached_analysis_Ok conn root0 path0 s m hit :
  get_cached_analysis conn root0 path0 s m = Ok hit ↔
  fits_int64 s = true ∧ fits_int64 m = true ∧
  List.find (same_key_fingerprint root0 path0 s m) conn = hit.
Proof.
  unfold get_cached_analysis.
  destruct (fits_int64 s), (fits_int64 m); simpl;
    split; try (intros [= <-]; done); try (intros (? & ? & ?); congruence).
Qed.

Lemma get_cached_analysis_Raise conn root0 path0 s m e :
  get_cached_analysis conn root0 path0 s m = Raise e ↔
  e = OverflowError ∧ (fits_int64 s = false ∨ fits_int64 m = false).
Proof.
  unfold get_cached_analysis.
  destruct (fits_int64 s), (fits_int64 m); simpl; split;
    try (intros [= <-]; auto); try discriminate;
    try (intros [-> [?|?]]; done).
Qed.

(** Two tables that answer the [SELECT] of a lookup alike answer the lookup
    alike. *)
Lemma get_cached_analysis_ext conn conn' root0 path0 s m :
  List.find (same_key_fingerprint root0 path0 s m) conn'
  = List.find (same_key_fingerprint root0 path0 s m) conn →
  get_cached_analysis conn' root0 path0 s m
  = get_cached_analysis conn root0 path0 s m.
Proof. unfold get_cached_analysis. by intros ->. Qed.

(** *** Updates and inserts *)

Lemma key_set_columns data r : key (set_columns data r) = key r.
Proof. reflexivity. Qed.

Lemma set_columns_own_key data r :
  key r = (root data, path data) →
  set_columns data r = {| id := id r; cols := data |}.
Proof.
  destruct r as [i c], data. unfold key, set_columns. simpl.
  intros [= -> ->]. reflexivity.
Qed.

Lemma map_key_update_where_id id0 data conn :
  List.map key (update_where_id id0 data conn) = List.map key conn.
Proof.
  unfold update_where_id. rewrite List.map_map. apply List.map_ext.
  intros r. case_bool_decide; reflexivity.
Qed.

Lemma map_id_update_where_id id0 data conn :
  List.map id (update_where_id id0 data conn) = List.map id conn.
Proof.
  unfold update_where_id. rewrite List.map_map. apply List.map_ext.
  intros r. case_bool_decide; reflexivity.
Qed.

Lemma find_same_key_None root0 path0 conn :
  List.find (same_key root0 path0) conn = None ↔
  (root0, path0) ∉ List.map key conn.
Proof.
  induction conn as [|r conn IH]; simpl.
  - split; [intros _; apply not_elem_of_nil | reflexivity].
  - rewrite not_elem_of_cons.
    destruct (same_key root0 path0 r) eqn:E.
    + apply same_key_true in E. split; [discriminate | intros [? _]; congruence].
    + rewrite IH. split; [|tauto].
      intros H. split; [|exact H].
      intros Hk. symmetry in Hk. apply same_key_true in Hk. congruence.
Qed.

Lemma find_same_key_Some root0 path0 conn existing :
  List.find (same_key root0 path0) conn = Some existing →
  existing ∈ conn ∧ key existing = (root0, path0).
Proof.
  intros H. apply List.find_some in H as [Hin Hk].
  split; [by apply list_elem_of_In | by apply same_key_true].
Qed.

Lemma find_same_key_is_Some root0 path0 conn :
  (root0, path0) ∈ List.map key conn →
  ∃ existing, List.find (same_key root0 path0) conn = Some existing.
Proof.
  intros Hin. destruct (List.find _ conn) as [existing|] eqn:E; [by eexists|].
  by apply find_same_key_None in E.
Qed.

Lemma fold_max_ge (l : list Z) (a : Z) :
  a ≤ fold_left Z.max l a ∧ ∀ x, x ∈ l → x ≤ fold_left Z.max l a.
Proof.
  revert a. induction l as [|y l IH]; intros a; simpl.
  - split; [lia | intros x Hx; by apply elem_of_nil in Hx].
  - destruct (IH (Z.max a y)) as [H1 H2]. split; [lia|].
    intros x [->|Hx]%elem_of_cons; [lia | by apply H2].
Qed.

Lemma fold_max_app (l1 l2 : list Z) (a : Z) :
  fold_left Z.max (l1 ++ l2) a = fold_left Z.max l2 (fold_left Z.max l1 a).
Proof. apply fold_left_app. Qed.

(** Every id of the table is at most [largest_id]. *)
Lemma largest_id_ge conn i : i ∈ List.map id conn → i ≤ largest_id conn.
Proof.
  unfold largest_id. destruct (List.map id conn) as [|j ids]; intros Hin.
  - by apply elem_of_nil in Hin.
  - destruct (fold_max_ge ids j) as [H1 H2].
    apply elem_of_cons in Hin as [->|Hin]; [done | by apply H2].
Qed.

Lemma largest_id_update_where_id id0 data conn :
  largest_id (update_where_id id0 data conn) = largest_id conn.
Proof. unfold largest_id. by rewrite map_id_update_where_id. Qed.

(** The largest id after a row with the next id is appended. *)
Lemma largest_id_snoc conn data :
  largest_id (conn ++ [ {| id := largest_id conn + 1; cols := data |} ])
  = largest_id conn + 1.
Proof.
  unfold largest_id. rewrite List.map_app. simpl.
  destruct (List.map id conn) as [|j ids]; simpl; [done|].
  rewrite fold_max_app. simpl. lia.
Qed.

(** While there is room, the next id is one more than the largest. *)
Lemma next_id_room sqlite conn :
  room conn 1 → next_id sqlite conn = Ok (largest_id conn + 1).
Proof.
  unfold room, next_id, largest_id. destruct conn as [|r conn]; simpl; [done|].
  intros H. by rewrite (proj2 (Z.ltb_lt _ _)) by lia.
Qed.

(** The id of a new row is not in use. *)
Lemma next_id_fresh sqlite conn id0 :
  next_id sqlite conn = Ok id0 → id0 ∉ List.map id conn.
Proof.
  destruct conn as [|r conn]; [intros _; apply not_elem_of_nil|].
  unfold next_id.
  destruct (fold_left Z.max (List.map id conn) (id r) <? MAX_ROWID) eqn:E.
  - intros [= <-] Hin.
    destruct (fold_max_ge (List.map id conn) (id r)) as [H1 H2].
    simpl in Hin. apply elem_of_cons in Hin as [Heq|Hin]; [lia|].
    apply H2 in Hin. lia.
  - cbv zeta. case_bool_decide as Hused; [discriminate|]. by intros [= <-].
Qed.

Lemma room_le conn (n n' : nat) : (n' ≤ n)%nat → room conn n → room conn n'.
Proof. unfold room. lia. Qed.

(** The two ways a call of [upsert_analysis] ends: it raises and leaves
    the table, or it returns and leaves the table [written]. *)
Lemma upsert_analysis_outcome sqlite conn data :
  (∃ e, upsert_analysis sqlite conn data = (conn, Raise e) ∧
        (bindable data = false ∧ e = OverflowError ∨
         bindable data = true ∧ e = OperationalError ∧
         List.find (same_key (root data) (path data)) conn = None ∧
         next_id sqlite conn = Raise e)) ∨
  (∃ id0, upsert_analysis sqlite conn data = (written id0 conn data, Ok tt) ∧
          bindable data = true ∧
          (List.find (same_key (root data) (path data)) conn = None →
           next_id sqlite conn = Ok id0)).
Proof.
  unfold upsert_analysis, written.
  destruct (List.find (same_key _ _) conn) as [existing|] eqn:E.
  - destruct (bindable data); [right | left].
    + exists 0. by split.
    + exists OverflowError. split; [done|]. by left.
  - destruct (bindable data); [|left; exists OverflowError; split; [done | by left]].
    destruct (next_id sqlite conn) as [id0|e] eqn:Hid.
    + right. exists id0. by split.
    + left. exists e. split; [done|]. right.
      assert (e = OperationalError) as ->; [|done].
      revert Hid. unfold next_id. destruct conn as [|r conn]; [discriminate|].
      destruct (_ <? _); [discriminate|]. cbv zeta.
      case_bool_decide; [by intros [= <-] | discriminate].
Qed.


Lemma upsert_analysis_Ok_bindable sqlite conn data :
  snd (upsert_analysis sqlite conn data) = Ok tt → bindable data = true.
Proof.
  destruct (upsert_analysis_outcome sqlite conn data)
    as [(e & -> & _)|(id0 & _ & Hb & _)]; [discriminate | done].
Qed.

Lemma unique_keys_written id0 conn data :
  unique_keys conn → unique_keys (written id0 conn data).
Proof.
  unfold unique_keys, written. intros Hnd.
  destruct (List.find _ conn) as [existing|] eqn:E.
  - by rewrite map_key_update_where_id.
  - rewrite List.map_app. simpl. apply NoDup_app. split; [done|]. split.
    + intros k Hk ->%list_elem_of_singleton.
      by apply find_same_key_None in E.
    + apply NoDup_singleton.
Qed.

Lemma primary_key_written id0 conn data :
  primary_key conn →
  (List.find (same_key (root data) (path data)) conn = None →
   id0 ∉ List.map id conn) →
  primary_key (written id0 conn data).
Proof.
  unfold primary_key, written. intros Hnd Hfresh.
  destruct (List.find _ conn) as [existing|] eqn:E.
  - by rewrite map_id_update_where_id.
  - rewrite List.map_app. simpl. apply NoDup_app. split; [done|]. split.
    + intros k Hk ->%list_elem_of_singleton. by apply Hfresh.
    + apply NoDup_singleton.
Qed.

Lemma unique_keys_upsert sqlite conn data :
  unique_keys conn → unique_keys (fst (upsert_analysis sqlite conn data)).
Proof.
  intros Hu. destruct (upsert_analysis_outcome sqlite conn data)
    as [(e & -> & _)|(id0 & -> & _)]; [done|]. by apply unique_keys_written.
Qed.

Lemma primary_key_upsert sqlite conn data :
  primary_key conn → primary_key (fst (upsert_analysis sqlite conn data)).
Proof.
  intros Hpk. destruct (upsert_analysis_outcome sqlite conn data)
    as [(e & -> & _)|(id0 & -> & _ & Hid)]; [done|].
  apply primary_key_written; [done|].
  intros Hnone. by apply (next_id_fresh sqlite), Hid.
Qed.

(** An upsert uses up at most one id. *)
Lemma room_upsert sqlite conn data n :
  room conn (S n) → room (fst (upsert_analysis sqlite conn data)) n.
Proof.
  intros Hroom. destruct (upsert_analysis_outcome sqlite conn data)
    as [(e & -> & _)|(id0 & -> & _ & Hid)]; cbn [fst].
  - apply (room_le conn (S n)); [lia | done].
  - unfold written. unfold room in *.
    destruct (List.find (same_key _ _) conn) as [existing|] eqn:E.
    + rewrite largest_id_update_where_id. lia.
    + specialize (Hid eq_refl). rewrite next_id_room in Hid by (unfold room; lia).
      injection Hid as <-. rewrite largest_id_snoc. lia.
Qed.

(** Looking up a key right after the update that [upsert_analysis] makes
    for it. *)
Lemma find_after_update data conn existing :
  List.find (same_key (root data) (path data)) conn = Some existing →
  List.find
    (same_key_fingerprint (root data) (path data) (size_bytes data) (mtime_ns data))
    (update_where_id (id existing) data conn)
  = Some {| id := id existing; cols := data |}.
Proof.
  induction conn as [|r conn IH]; simpl; [discriminate|].
  destruct (same_key (root data) (path data) r) eqn:E.
  - intros [= ->]. rewrite bool_decide_eq_true_2 by reflexivity.
    apply same_key_true in E. rewrite (set_columns_own_key _ _ E).
    assert (same_key_fingerprint (root data) (path data) (size_bytes data)
              (mtime_ns data) {| id := id existing; cols := data |} = true) as ->
      by (by apply same_key_fingerprint_true).
    reflexivity.
  - intros H. specialize (IH H).
    set (r' := if bool_decide (id r = id existing) then set_columns data r else r).
    assert (key r' = key r) as Hk by (unfold r'; case_bool_decide; reflexivity).
    destruct (same_key_fingerprint _ _ _ _ r') eqn:E'; [|exact IH].
    apply same_key_fingerprint_key in E'. rewrite Hk in E'.
    apply same_key_true in E'. congruence.
Qed.

Lemma find_app_r {A} (f : A → bool) (l1 l2 : list A) :
  List.find f l1 = None → List.find f (l1 ++ l2) = List.find f l2.
Proof.
  induction l1 as [|x l1 IH]; simpl; [done|].
  destruct (f x); [discriminate | exact IH].
Qed.

Lemma find_app_l {A} (f : A → bool) (l1 l2 : list A) x :
  List.find f l1 = Some x → List.find f (l1 ++ l2) = Some x.
Proof.
  induction l1 as [|y l1 IH]; simpl; [discriminate|].
  destruct (f y); [done | exact IH].
Qed.

Lemma find_fingerprint_None_of_key_None root0 path0 s m conn :
  List.find (same_key root0 path0) conn = None →
  List.find (same_key_fingerprint root0 path0 s m) conn = None.
Proof.
  induction conn as [|r conn IH]; simpl; [done|].
  destruct (same_key root0 path0 r) eqn:E; [discriminate|]. intros H.
  destruct (same_key_fingerprint root0 path0 s m r) eqn:E'; [|by apply IH].
  apply same_key_fingerprint_key, same_key_true in E'. congruence.
Qed.

(** The row a returning upsert leaves is the one a lookup of its key and
    fingerprint finds. *)
Lemma written_find id0 conn data :
  List.find
    (same_key_fingerprint (root data) (path data) (size_bytes data) (mtime_ns data))
    (written id0 conn data)
  = Some {| id := match List.find (same_key (root data) (path data)) conn with
                  | Some existing => id existing
                  | None => id0
                  end;
            cols := data |}.
Proof.
  unfold written.
  destruct (List.find (same_key _ _) conn) as [existing|] eqn:E.
  - by apply find_after_update.
  - rewrite find_app_r by (by apply find_fingerprint_None_of_key_None). simpl.
    assert (same_key_fingerprint (root data) (path data) (size_bytes data)
              (mtime_ns data) {| id := id0; cols := data |} = true) as ->
      by (by apply same_key_fingerprint_true).
    reflexivity.
Qed.

Lemma bindable_fingerprint data :
  bindable data = true →
  fits_int64 (size_bytes data) = true ∧ fits_int64 (mtime_ns data) = true.
Proof.
  unfold bindable. rewrite !andb_true_iff. tauto.
Qed.

(** After an upsert that returns, the lookup of the record's key and
    fingerprint returns a row with the columns of the record. *)
Lemma upsert_lookup sqlite conn data :
  snd (upsert_analysis sqlite conn data) = Ok tt →
  ∃ r, get_cached_analysis (fst (upsert_analysis sqlite conn data))
         (root data) (path data) (size_bytes data) (mtime_ns data)
       = Ok (Some r) ∧
       cols r = data ∧ r ∈ fst (upsert_analysis sqlite conn data).
Proof.
  destruct (upsert_analysis_outcome sqlite conn data)
    as [(e & -> & _)|(id0 & -> & Hb & _)]; [discriminate|]. intros _.
  cbn [fst]. destruct (bindable_fingerprint data Hb) as [Hs Hm].
  eexists. split.
  { apply get_cached_analysis_Ok. split; [done|]. split; [done|].
    apply written_find. }
  split; [reflexivity|].
  pose proof (written_find id0 conn data) as Hf.
  apply List.find_some in Hf as [Hin _]. by apply list_elem_of_In.
Qed.

Lemma elem_of_map_id (conn : Table) r : r ∈ conn → id r ∈ List.map id conn.
Proof. rewrite !list_elem_of_In. apply List.in_map. Qed.

Lemma primary_key_inj conn r1 r2 :
  primary_key conn → r1 ∈ conn → r2 ∈ conn → id r1 = id r2 → r1 = r2.
Proof.
  unfold primary_key. induction conn as [|r conn IH]; simpl.
  - intros _ H. by apply elem_of_nil in H.
  - intros [Hr Hnd]%NoDup_cons [->|H1]%elem_of_cons [->|H2]%elem_of_cons Heq;
      try done.
    + exfalso. apply Hr. rewrite Heq. by apply elem_of_map_id.
    + exfalso. apply Hr. rewrite <- Heq. by apply elem_of_map_id.
    + by apply IH.
Qed.

Lemma written_find_other id0 conn data root0 path0 s m :
  primary_key conn →
  (root0, path0) ≠ (root data, path data) →
  List.find (same_key_fingerprint root0 path0 s m) (written id0 conn data)
  = List.find (same_key_fingerprint root0 path0 s m) conn.
Proof.
  intros Hpk Hne. unfold written.
  destruct (List.find (same_key _ _) conn) as [existing|] eqn:E.
  - apply find_same_key_Some in E as [Hin Hk].
    assert (∀ r, r ∈ conn → id r = id existing → r = existing) as Hid
      by (intros r Hr Heq; by apply (primary_key_inj conn)).
    clear Hpk Hin. induction conn as [|r conn IH]; simpl; [done|].
    rewrite IH by (intros r' Hr'; apply Hid; by right).
    case_bool_decide as Hi.
    + apply Hid in Hi; [|by left]. subst r.
      assert (same_key_fingerprint root0 path0 s m existing = false) as ->.
      { apply not_true_is_false. intros H%same_key_fingerprint_key. congruence. }
      assert (same_key_fingerprint root0 path0 s m (set_columns data existing) = false) as ->.
      { apply not_true_is_false. intros H%same_key_fingerprint_key.
        rewrite key_set_columns in H. congruence. }
      reflexivity.
    + reflexivity.
  - destruct (List.find (same_key_fingerprint _ _ _ _) conn) as [r|] eqn:E'.
    + by apply find_app_l.
    + rewrite find_app_r by done. simpl.
      destruct (same_key_fingerprint _ _ _ _ _) eqn:E''; [|done].
      apply same_key_fingerprint_key in E''. unfold key in E''. simpl in E''.
      congruence.
Qed.

(** An upsert leaves the lookups of every other key as they were. *)
Lemma upsert_lookup_other sqlite conn data root0 path0 s m :
  primary_key conn →
  (root0, path0) ≠ (root data, path data) →
  get_cached_analysis (fst (upsert_analysis sqlite conn data)) root0 path0 s m
  = get_cached_analysis conn root0 path0 s m.
Proof.
  intros Hpk Hne. destruct (upsert_analysis_outcome sqlite conn data)
    as [(e & -> & _)|(id0 & -> & _)]; [done|].
  apply get_cached_analysis_ext. by apply written_find_other.
Qed.

Lemma written_mem_other id0 conn data r :
  primary_key conn → key r ≠ (root data, path data) →
  r ∈ written id0 conn data ↔ r ∈ conn.
Proof.
  intros Hpk Hne. unfold written.
  destruct (List.find (same_key _ _) conn) as [existing|] eqn:E.
  - apply find_same_key_Some in E as [Hin Hk].
    unfold update_where_id. rewrite list_elem_of_In, List.in_map_iff. split.
    + intros (r0 & Hr0 & Hin0%list_elem_of_In).
      case_bool_decide as Hid; [|by subst].
      apply (primary_key_inj conn) in Hid; [|done..]. subst r0 r.
      rewrite key_set_columns in Hne. congruence.
    + intros Hr. exists r. split; [|by apply list_elem_of_In].
      case_bool_decide as Hi; [|done].
      apply (primary_key_inj conn) in Hi; [congruence | done..].
  - rewrite elem_of_app, list_elem_of_singleton. split; [|by left].
    intros [Hr| ->]; [done|]. by destruct Hne.
Qed.

Lemma upsert_mem_other sqlite conn data r :
  primary_key conn → key r ≠ (root data, path data) →
  r ∈ fst (upsert_analysis sqlite conn data) ↔ r ∈ conn.
Proof.
  intros Hpk Hne. destruct (upsert_analysis_outcome sqlite conn data)
    as [(e & -> & _)|(id0 & -> & _)]; [done|]. by apply written_mem_other.
Qed.

Lemma map_key_written id0 conn data :
  ∀ k, k ∈ List.map key (written id0 conn data) ↔
       k ∈ List.map key conn ∨ k = (root data, path data).
Proof.
  intros k. unfold written.
  destruct (List.find (same_key _ _) conn) as [existing|] eqn:E.
  - rewrite map_key_update_where_id. split; [by left|].
    intros [H| ->]; [done|]. apply find_same_key_Some in E as [Hin <-].
    apply list_elem_of_In, List.in_map, list_elem_of_In, Hin.
  - rewrite List.map_app, elem_of_app. simpl. by rewrite list_elem_of_singleton.
Qed.

Lemma elem_of_db_paths conn root0 p :
  p ∈ db_paths conn root0 ↔ ∃ r, r ∈ conn ∧ key r = (root0, p).
Proof.
  unfold db_paths, key. rewrite elem_of_list_to_set, list_elem_of_In.
  rewrite List.in_map_iff. split.
  - intros (r & <- & [Hin Hr]%List.filter_In).
    apply bool_decide_eq_true in Hr. exists r.
    split; [by apply list_elem_of_In | by rewrite Hr].
  - intros (r & Hin & [= Hr Hp]). exists r. split; [done|].
    apply List.filter_In. split; [by apply list_elem_of_In|].
    by apply bool_decide_eq_true.
Qed.

Lemma elem_of_db_paths_key conn root0 p :
  p ∈ db_paths conn root0 ↔ (root0, p) ∈ List.map key conn.
Proof.
  rewrite elem_of_db_paths, list_elem_of_In, List.in_map_iff.
  split; intros (r & H1 & H2); exists r; split;
    try done; by apply list_elem_of_In.
Qed.

(** The paths stored for a root after an upsert: those stored before, and
    the path of the record if the call returns and the root is its own. *)
Lemma db_paths_upsert sqlite conn data root0 :
  db_paths conn root0 ⊆ db_paths (fst (upsert_analysis sqlite conn data)) root0 ∧
  db_paths (fst (upsert_analysis sqlite conn data)) root0
  ⊆ db_paths conn root0
    ∪ (if bool_decide (root data = root0) then {[ path data ]} else ∅) ∧
  (snd (upsert_analysis sqlite conn data) = Ok tt →
   path data ∈ db_paths (fst (upsert_analysis sqlite conn data)) (root data)).
Proof.
  destruct (upsert_analysis_outcome sqlite conn data)
    as [(e & -> & _)|(id0 & -> & _)]; cbn [fst snd].
  - split; [done|]. split; [set_solver | discriminate].
  - split; [|split].
    + intros p. rewrite !elem_of_db_paths_key, map_key_written. by left.
    + intros p. rewrite elem_of_union, !elem_of_db_paths_key, map_key_written.
      intros [H|[= -> ->]]; [by left | right].
      rewrite bool_decide_eq_true_2 by done. by apply elem_of_singleton.
    + intros _. rewrite elem_of_db_paths_key, map_key_written. by right.
Qed.










(** *** Reconciliation *)

(** A row is in the table [reconciled] exactly when it was there before and
    is not a row of the root with a path outside [existing_paths]. *)
Lemma elem_of_reconciled conn root0 existing r :
  r ∈ reconciled conn root0 existing ↔
  r ∈ conn ∧ ¬ (root (cols r) = root0 ∧ path (cols r) ∉ existing).
Proof.
  unfold reconciled, delete_where_root_and_path_in.
  rewrite list_elem_of_In, List.filter_In, <- list_elem_of_In.
  rewrite negb_true_iff, bool_decide_eq_false, elem_of_difference.
  split; intros [Hr Hn]; (split; [done|]).
  - intros [Hroot Hp]. apply Hn. split; [done|]. split; [|done].
    apply elem_of_db_paths. exists r. split; [done|]. unfold key. by rewrite Hroot.
  - intros [Hroot [_ Hp]]. apply Hn. by split.
Qed.

Lemma reconciled_nothing conn root0 existing :
  db_paths conn root0 ∖ existing = ∅ → reconciled conn root0 existing = conn.
Proof.
  intros Hempty. unfold reconciled, delete_where_root_and_path_in.
  rewrite Hempty. apply List.forallb_filter_id.
  apply List.forallb_forall. intros r _. apply negb_true_iff, bool_decide_eq_false.
  intros [_ H]. by apply not_elem_of_empty in H.
Qed.

(** The two ways a call of [delete_missing_files] ends: it returns the
    number of stale paths and leaves the table [reconciled], or, with more
    stale paths than parameters left, it raises and leaves the table. *)
Lemma delete_missing_files_outcome sqlite conn root0 existing :
  let n := Z.of_nat (size (db_paths conn root0 ∖ existing)) in
  (delete_missing_files sqlite conn root0 existing
   = (reconciled conn root0 existing, Ok n) ∧
   (db_paths conn root0 ∖ existing = ∅ ∨ 1 + n ≤ variable_number sqlite)) ∨
  (delete_missing_files sqlite conn root0 existing
   = (conn, Raise OperationalError) ∧
   db_paths conn root0 ∖ existing ≠ ∅ ∧ variable_number sqlite < 1 + n).
Proof.
  intros n. unfold delete_missing_files. cbv zeta. fold n.
  case_bool_decide as Hempty.
  - left. rewrite reconciled_nothing by done. split; [done | by left].
  - destruct (Z.ltb_spec (variable_number sqlite) (1 + n)).
    + right. by split.
    + left. split; [done | by right].
Qed.

(** Reconciliation removes rows only, and no row of another root or of a
    path it was told exists. *)
Lemma elem_of_delete_missing_files sqlite conn root0 existing r :
  (r ∈ fst (delete_missing_files sqlite conn root0 existing) → r ∈ conn) ∧
  (r ∈ conn → ¬ (root (cols r) = root0 ∧ path (cols r) ∉ existing) →
   r ∈ fst (delete_missing_files sqlite conn root0 existing)).
Proof.
  destruct (delete_missing_files_outcome sqlite conn root0 existing)
    as [[-> _]|[-> _]]; cbn [fst]; [|by split].
  rewrite elem_of_reconciled. tauto.
Qed.

Lemma find_filter {A} (f g : A → bool) (l : list A) :
  (∀ x, f x = true → g x = true) →
  List.find f (List.filter g l) = List.find f l.
Proof.
  intros Hfg. induction l as [|x l IH]; simpl; [done|].
  destruct (g x) eqn:Hg; simpl.
  - by rewrite IH.
  - destruct (f x) eqn:Hf; [|exact IH].
    apply Hfg in Hf. congruence.
Qed.

(** Reconciliation leaves the lookups of the paths it was told exist. *)
Lemma delete_missing_files_lookup sqlite conn root0 existing root1 p s m :
  (root1 = root0 → p ∈ existing) →
  get_cached_analysis (fst (delete_missing_files sqlite conn root0 existing))
    root1 p s m
  = get_cached_analysis conn root1 p s m.
Proof.
  intros Hp. destruct (delete_missing_files_outcome sqlite conn root0 existing)
    as [[-> _]|[-> _]]; cbn [fst]; [|done].
  apply get_cached_analysis_ext.
  unfold reconciled, delete_where_root_and_path_in. apply find_filter.
  intros r (Hr & Hpath & _)%same_key_fingerprint_true.
  apply negb_true_iff, bool_decide_eq_false.
  intros [Hroot [_ Hn]%elem_of_difference]. apply Hn.
  rewrite Hpath. apply Hp. congruence.
Qed.

Lemma NoDup_map_filter {A B} (f : A → B) (g : A → bool) (l : list A) :
  NoDup (List.map f l) → NoDup (List.map f (List.filter g l)).
Proof.
  induction l as [|x l IH]; simpl; [done|].
  intros [Hx Hnd]%NoDup_cons. destruct (g x); simpl; [|by apply IH].
  apply NoDup_cons. split; [|by apply IH].
  intros Hin. apply Hx. apply list_elem_of_In in Hin.
  apply List.in_map_iff in Hin as (y & Hy & [Hin _]%List.filter_In).
  rewrite <- Hy. apply list_elem_of_In, List.in_map, Hin.
Qed.

Lemma primary_key_delete_missing_files sqlite conn root0 existing :
  primary_key conn →
  primary_key (fst (delete_missing_files sqlite conn root0 existing)).
Proof.
  intros Hpk. destruct (delete_missing_files_outcome sqlite conn root0 existing)
    as [[-> _]|[-> _]]; cbn [fst]; [|done]. by apply NoDup_map_filter.
Qed.

Lemma unique_keys_delete_missing_files sqlite conn root0 existing :
  unique_keys conn →
  unique_keys (fst (delete_missing_files sqlite conn root0 existing)).
Proof.
  intros Hu. destruct (delete_missing_files_outcome sqlite conn root0 existing)
    as [[-> _]|[-> _]]; cbn [fst]; [|done]. by apply NoDup_map_filter.
Qed.

Lemma db_paths_reconciled conn root0 existing :
  db_paths (reconciled conn root0 existing) root0 ⊆ existing.
Proof.
  intros p (r & [Hr Hn]%elem_of_reconciled & Hk)%elem_of_db_paths.
  injection Hk as Hroot Hp.
  destruct (decide (p ∈ existing)) as [|Hout]; [done|].
  exfalso. apply Hn. by rewrite Hp.
Qed.

Lemma elem_of_get_all_analyses_for_root conn root0 r :
  r ∈ get_all_analyses_for_root conn root0 ↔ r ∈ conn ∧ root (cols r) = root0.
Proof.
  unfold get_all_analyses_for_root. rewrite merge_sort_Permutation.
  rewrite list_elem_of_In, List.filter_In, <- list_elem_of_In.
  by rewrite bool_decide_eq_true.
Qed.

End db_facts.

(** ** The image analyzer *)
Module analysis_facts.
Import analysis.

Example round_ties_to_even :
  (round 0.125 2 == 0.12)%Q ∧ (round 0.375 2 == 0.38)%Q ∧
  (round 149.997 2 == 150)%Q ∧ (round 149.994 2 == 149.99)%Q ∧
  (round (-2.5) 0 == -2)%Q.
Proof. repeat split; by vm_compute. Qed.

Example largest_detection_is_first_of_greatest_area :
  get_largest_detection [(0, 0, 2, 3); (5, 5, 3, 2); (9, 9, 1, 1)]
  = Some (0, 0, 2, 3).
Proof. by vm_compute. Qed.

(** The product of the sides is taken in 32 bits: a box of 46341 by 46341
    pixels has a negative key and loses against a box of one pixel. *)
Example largest_detection_wraps :
  int32_mul 46340 46340 = 2147395600 ∧
  int32_mul 46341 46341 = -2147479015 ∧
  get_largest_detection [(0, 0, 46341, 46341); (7, 7, 1, 1)]
  = Some (7, 7, 1, 1).
Proof. by vm_compute. Qed.

Example categorize_centering_boundaries :
  categorize_centering 0.15 = "well_centered" ∧
  categorize_centering 0.1501 = "somewhat_centered" ∧
  categorize_centering 0.35 = "somewhat_centered" ∧
  categorize_centering 0.3501 = "off_center".
Proof. repeat split; reflexivity. Qed.

Lemma float_ge_true a b : float_ge a b = true ↔ (b <= a)%Q.
Proof. unfold float_ge. apply Qle_bool_iff. Qed.

Lemma float_ge_false a b : float_ge a b = false ↔ (a < b)%Q.
Proof.
  unfold float_ge. split.
  - intros H. apply Qnot_le_lt. intros Hle%Qle_bool_iff. congruence.
  - intros H. apply not_true_is_false. intros Hle%Qle_bool_iff.
    by apply Qlt_not_le in H.
Qed.


(** C6: the blur score [s] is "sharp" exactly when [s >= 150.0], "soft"
    exactly when [50.0 <= s < 150.0] and "blurry" exactly when [s < 50.0];
    150.0 is "sharp", 149.99 is "soft", 50.0 is "soft", 49.99 is "blurry". *)
Theorem categorize_blur_bands (s : Q) :
  (categorize_blur s = "sharp" ↔ (150 <= s)%Q) ∧
  (categorize_blur s = "soft" ↔ (50 <= s)%Q ∧ (s < 150)%Q) ∧
  (categorize_blur s = "blurry" ↔ (s < 50)%Q) ∧
  categorize_blur 150 = "sharp" ∧
  categorize_blur 149.99 = "soft" ∧
  categorize_blur 50 = "soft" ∧
  categorize_blur 49.99 = "blurry".
Proof.
  unfold categorize_blur, BLUR_THRESHOLD_SHARP, BLUR_THRESHOLD_SOFT.
  repeat split; try reflexivity.
  all: destruct (float_ge s 150) eqn:E1;
       [apply float_ge_true in E1 | apply float_ge_false in E1];
       (destruct (float_ge s 50) eqn:E2;
        [apply float_ge_true in E2 | apply float_ge_false in E2]);
       try done; try discriminate.
  all: try (intros H; exfalso; revert H).
  all: try (intros [H1 H2]; exfalso; revert H1 H2).
  all: try (intros; exfalso).
  all: repeat match goal with
         | H : (_ <= _)%Q |- _ => revert H
         | H : (_ < _)%Q |- _ => revert H
         end; unfold Qle, Qlt; simpl; lia.
Qed.



(** C7: when the image decodes and neither detector reports a box, the
    result of [analyze_image] has [center_score == 0.0] and the
    [center_category] "well_centered". *)
Theorem no_detection_is_well_centered
    (cv2 : Cv2) (image_path : string) (color_image : Image cv2) :
  imread cv2 image_path = Some color_image →
  detect_faces cv2 (cvtColor cv2 color_image) = [] →
  detect_cat_faces cv2 (cvtColor cv2 color_image) = [] →
  ∃ a, analyze_image cv2 image_path = Some a ∧
       center_score a = 0%Q ∧ center_category a = "well_centered" ∧
       has_person a = false ∧ has_pet a = false.
Proof.
  intros Himg Hfaces Hcats. unfold analyze_image. rewrite Himg.
  destruct (shape cv2 color_image) as [h w]. rewrite Hfaces, Hcats. simpl.
  eexists. split; [reflexivity|]. simpl. repeat split; reflexivity.
Qed.

Lemma no_detection_is_well_centered_witness :
  ∃ a, analyze_image examples.cv2 "/photos/a.jpg" = Some a ∧
       center_score a = 0%Q ∧ center_category a = "well_centered" ∧
       has_person a = false ∧ has_pet a = false.
Proof.
  apply (no_detection_is_well_centered examples.cv2 "/photos/a.jpg"
           "/photos/a.jpg"); reflexivity.
Defined.



End analysis_facts.

(** ** The pipeline *)
Module pipeline_facts.
Import db db_facts analyze_photos.

(** A file dated after the year 2262 is an error at every run, forced or
    not, and gets no row. *)
Example late_file_is_an_error_at_every_run :
  let run1 := examples.run [examples.a_jpg; examples.late_jpg] false [] in
  let run2 := examples.run [examples.a_jpg; examples.late_jpg] false (fst run1) in
  let run3 := examples.run [examples.a_jpg; examples.late_jpg] true (fst run2) in
  snd run1 = Ok {| total := 2; analyzed := 1; cached := 0; errors := 1;
                   deleted := 0 |} ∧
  snd run2 = Ok {| total := 2; analyzed := 0; cached := 1; errors := 1;
                   deleted := 0 |} ∧
  snd run3 = Ok {| total := 2; analyzed := 1; cached := 0; errors := 1;
                   deleted := 0 |} ∧
  List.map (fun r => path (cols r)) (fst run3) = ["a.jpg"].
Proof. by vm_compute. Qed.

(** With a limit of two parameters and two stale paths, the reconciliation
    raises: [process_images] raises after a loop that counted no error and
    wrote its row, the stale rows stay, and [main] returns 1. *)
Example reconciliation_can_raise :
  let os := examples.os [examples.c_jpg] in
  let run :=
    process_images examples.sqlite_2 os examples.cv2 examples.clock
      examples.table_ab "/photos" ∅ false in
  snd run = Raise OperationalError ∧
  List.map (fun r => path (cols r)) (fst run) = ["a.jpg"; "b.jpg"; "c.jpg"] ∧
  errors (stats (after_loop examples.sqlite_2 os examples.cv2 examples.clock
                   examples.table_ab "/photos" ∅ false))
  = 0 ∧
  snd (main examples.sqlite_2 os examples.cv2 examples.clock examples.table_ab
         (examples.args false))
  = 1.
Proof. by vm_compute. Qed.

Lemma storable_bindable root_path rel_path s m a analyzed_at :
  bindable (make_record root_path rel_path s m a analyzed_at) = storable s m a.
Proof.
  unfold bindable, storable, make_record. cbn [size_bytes mtime_ns width height
    has_person has_pet].
  assert (∀ b : bool, fits_int64 (if b then 1 else 0) = true) as H
    by (by intros []).
  by rewrite !H, !andb_true_r.
Qed.

Lemma broken_can_process os cv2 image :
  broken os cv2 image ↔ can_process os cv2 image = false.
Proof.
  unfold broken, can_process.
  destruct (util.get_file_stats os (fst image)) as [[s m]|];
    destruct (analysis.analyze_image cv2 (fst image)) as [a|].
  - split.
    + intros [?|[?|(s' & m' & a' & [= <- <-] & [= <-] & H)]]; done.
    + intros H. right. right. by exists s, m, a.
  - split; [done|]. intros _. right. by left.
  - split; [done|]. intros _. by left.
  - split; [done|]. intros _. by left.
Qed.

Lemma not_broken os cv2 image s m a :
  util.get_file_stats os (fst image) = Some (s, m) →
  analysis.analyze_image cv2 (fst image) = Some a →
  storable s m a = true → ¬ broken os cv2 image.
Proof.
  intros Hs Ha Hok Hb. apply broken_can_process in Hb.
  unfold can_process in Hb. rewrite Hs, Ha in Hb. congruence.
Qed.

Section one_run.
Variable sqlite : Sqlite.
Variable os : util.Os.
Variable cv2 : analysis.Cv2.
Variable now : nat → string.
Variable root_path : string.
Variable force : bool.

Abbreviation step := (process_one sqlite os cv2 now root_path force).

(** The ways the body of the loop ends for an image. *)
Lemma process_one_cases (st : Loop) (image : string * string) :
  existing_paths (step st image) = {[ snd image ]} ∪ existing_paths st ∧
  tick (step st image) = S (tick st) ∧
  ( (* an exception was raised: the file cannot be processed, or no rowid
       was found for its row *)
    (conn (step st image) = conn st ∧
     stats (step st image) = count_error (stats st) ∧
     (broken os cv2 image ∨
      ∃ s m a,
        util.get_file_stats os (fst image) = Some (s, m) ∧
        analysis.analyze_image cv2 (fst image) = Some a ∧
        storable s m a = true ∧
        (force = true ∨
         get_cached_analysis (conn st) root_path (snd image) s m = Ok None) ∧
        ((root_path, snd image) ∉ List.map key (conn st)) ∧
        ¬ room (conn st) 1))
  ∨ (* the cache was used *)
    (conn (step st image) = conn st ∧
     stats (step st image) = count_cached (stats st) ∧
     force = false ∧
     ∃ s m r, util.get_file_stats os (fst image) = Some (s, m) ∧
              get_cached_analysis (conn st) root_path (snd image) s m
              = Ok (Some r))
  ∨ (* the image was analyzed and its record saved *)
    (∃ s m a,
       util.get_file_stats os (fst image) = Some (s, m) ∧
       analysis.analyze_image cv2 (fst image) = Some a ∧
       (force = true ∨
        get_cached_analysis (conn st) root_path (snd image) s m = Ok None) ∧
       snd (upsert_analysis sqlite (conn st)
              (make_record root_path (snd image) s m a (now (tick st))))
       = Ok tt ∧
       conn (step st image)
       = fst (upsert_analysis sqlite (conn st)
                (make_record root_path (snd image) s m a (now (tick st)))) ∧
       stats (step st image) = count_analyzed (stats st)) ).
Proof.
  destruct image as [abs_path rel_path]. unfold process_one. cbn [fst snd].
  destruct (util.get_file_stats os abs_path) as [[s m]|] eqn:Hstat;
    [|cbn; split; [done|]; split; [done|]; left;
      split; [done|]; split; [done|]; left; left;
      unfold broken; cbn [fst]; by rewrite Hstat].
  assert (∀ hit : Result (option Row),
    hit = (if force then Ok None
           else get_cached_analysis (conn st) root_path rel_path s m) →
    hit = Ok None →
    force = true ∨
    get_cached_analysis (conn st) root_path rel_path s m = Ok None) as Hmiss.
  { intros hit -> H. destruct force; [by left | by right]. }
  specialize (Hmiss _ eq_refl).
  destruct (if force then Ok None
            else get_cached_analysis (conn st) root_path rel_path s m)
    as [[r|]|e] eqn:Hhit.
  - (* a row was found *)
    cbn. split; [done|]. split; [done|]. right. left.
    destruct force; [discriminate|]. repeat split; try done. by exists s, m, r.
  - (* no row: the image is analyzed *)
    specialize (Hmiss eq_refl).
    destruct (analysis.analyze_image cv2 abs_path) as [a|] eqn:Ha;
      [|cbn; split; [done|]; split; [done|]; left;
        split; [done|]; split; [done|]; left; right; left; done].
    set (record := make_record root_path rel_path s m a (now (tick st))).
    destruct (upsert_analysis_outcome sqlite (conn st) record)
      as [(e & Hup & Hwhy)|(id0 & Hup & Hb & _)]; rewrite Hup.
    + cbn. split; [done|]. split; [done|]. left.
      split; [done|]. split; [done|].
      unfold record in Hwhy. rewrite storable_bindable in Hwhy.
      destruct Hwhy as [[Hb _]|(Hb & _ & Hnone & Hid)].
      * left. right. right. cbn [fst]. by exists s, m, a.
      * right. exists s, m, a. repeat split; try done.
        -- by apply find_same_key_None in Hnone.
        -- intros Hroom. rewrite next_id_room in Hid by done. discriminate.
    + cbn. split; [done|]. split; [done|]. right. right.
      exists s, m, a. fold record. rewrite Hup. repeat split; done.
  - (* the lookup raised *)
    cbn. split; [done|]. split; [done|]. left. split; [done|]. split; [done|].
    left. destruct force; [discriminate|].
    apply get_cached_analysis_Raise in Hhit as [_ Hfits].
    destruct (analysis.analyze_image cv2 abs_path) as [a|] eqn:Ha;
      [|right; by left].
    right. right. cbn [fst]. exists s, m, a. split; [done|]. split; [done|].
    unfold storable. destruct Hfits as [-> | ->]; [done|].
    by rewrite andb_false_r.
Qed.

(** *** What the loop keeps *)

Lemma loop_existing_paths images st :
  existing_paths (fold_left step images st)
  = list_to_set (rel_paths images) ∪ existing_paths st.
Proof.
  revert st. induction images as [|image images IH]; intros st; simpl.
  - set_solver.
  - rewrite IH. destruct (process_one_cases st image) as (-> & _). set_solver.
Qed.

(** The table after one image: the table before, or the table an upsert
    of a record of the image leaves. *)
Lemma step_conn st image :
  conn (step st image) = conn st ∨
  ∃ data, root data = root_path ∧ path data = snd image ∧
          snd (upsert_analysis sqlite (conn st) data) = Ok tt ∧
          conn (step st image) = fst (upsert_analysis sqlite (conn st) data).
Proof.
  destruct (process_one_cases st image)
    as (_ & _ & [(-> & _)|[(-> & _)|(s & m & a & _ & _ & _ & Hok & -> & _)]]);
    [by left..|].
  right. eexists. split; [|split; [|split; [exact Hok | reflexivity]]]; done.
Qed.

Lemma step_total st image : total (stats (step st image)) = total (stats st).
Proof.
  destruct (process_one_cases st image)
    as (_ & _ & [(_ & -> & _)|[(_ & -> & _)|(s & m & a & _ & _ & _ & _ & _ & ->)]]);
    reflexivity.
Qed.

Lemma loop_total images st :
  total (stats (fold_left step images st)) = total (stats st).
Proof.
  revert st. induction images as [|image images IH]; intros st; simpl; [done|].
  by rewrite IH, step_total.
Qed.

Lemma step_primary_key st image :
  primary_key (conn st) → primary_key (conn (step st image)).
Proof.
  intros Hpk. destruct (step_conn st image) as [-> | (data & _ & _ & _ & ->)];
    [done|]. by apply primary_key_upsert.
Qed.

Lemma loop_primary_key images st :
  primary_key (conn st) → primary_key (conn (fold_left step images st)).
Proof.
  revert st. induction images as [|image images IH]; intros st Hpk; simpl;
    [done|]. by apply IH, step_primary_key.
Qed.

Lemma step_room st image n :
  room (conn st) (S n) → room (conn (step st image)) n.
Proof.
  intros Hroom. destruct (step_conn st image) as [-> | (data & _ & _ & _ & ->)].
  - apply (room_le _ (S n)); [lia | done].
  - by apply room_upsert.
Qed.

(** The loop writes only under the keys [(root_path, rel_path)] of the
    images it handles: the lookups of every other key stay. *)
Lemma step_lookup_other st image root0 p s m :
  primary_key (conn st) → (root0 = root_path → p ≠ snd image) →
  get_cached_analysis (conn (step st image)) root0 p s m
  = get_cached_analysis (conn st) root0 p s m.
Proof.
  intros Hpk Hne.
  destruct (step_conn st image) as [-> | (data & Hroot & Hpath & _ & ->)];
    [done|].
  apply upsert_lookup_other; [done|]. rewrite Hroot, Hpath.
  intros [= -> ->]. by apply Hne.
Qed.

Lemma loop_lookup_other images st root0 p s m :
  primary_key (conn st) → (root0 = root_path → p ∉ rel_paths images) →
  get_cached_analysis (conn (fold_left step images st)) root0 p s m
  = get_cached_analysis (conn st) root0 p s m.
Proof.
  revert st. induction images as [|image images IH]; intros st Hpk Hp; simpl;
    [done|].
  rewrite IH.
  - apply step_lookup_other; [done|]. intros -> ->. apply Hp; [done|].
    simpl. by left.
  - by apply step_primary_key.
  - intros -> Hin. apply Hp; [done|]. simpl. by right.
Qed.

(** A row whose file cannot be processed is not written to. *)
Lemma step_keeps_row st image r :
  primary_key (conn st) → r ∈ conn st →
  (key r = (root_path, snd image) → broken os cv2 image) →
  r ∈ conn (step st image).
Proof.
  intros Hpk Hr Hb. destruct (process_one_cases st image)
    as (_ & _ & [(-> & _)|[(-> & _)|(s & m & a & Hs & Ha & _ & Hok & -> & _)]]);
    try done.
  apply upsert_mem_other; [done| |done]. cbn [root path make_record]. intros Hk.
  apply upsert_analysis_Ok_bindable in Hok. rewrite storable_bindable in Hok.
  apply (not_broken os cv2 image s m a); auto.
Qed.

Lemma loop_keeps_row images st r :
  primary_key (conn st) → r ∈ conn st →
  (∀ image, image ∈ images → key r = (root_path, snd image) →
            broken os cv2 image) →
  r ∈ conn (fold_left step images st).
Proof.
  revert st. induction images as [|image images IH]; intros st Hpk Hr Hb;
    simpl; [done|].
  apply IH.
  - by apply step_primary_key.
  - apply step_keeps_row; [done..|]. apply Hb. by left.
  - intros image' Hin. apply Hb. by right.
Qed.

(** The paths stored for the root only grow in the loop, and only by
    paths of the scan. *)
Lemma loop_db_paths images st :
  db_paths (conn st) root_path ⊆ db_paths (conn (fold_left step images st)) root_path ∧
  db_paths (conn (fold_left step images st)) root_path
    ⊆ db_paths (conn st) root_path ∪ list_to_set (rel_paths images).
Proof.
  revert st. induction images as [|image images IH]; intros st; simpl.
  - set_solver.
  - destruct (IH (step st image)) as [IH1 IH2].
    assert (db_paths (conn st) root_path ⊆ db_paths (conn (step st image)) root_path ∧
            db_paths (conn (step st image)) root_path
              ⊆ db_paths (conn st) root_path ∪ {[ snd image ]}) as [H1 H2].
    { destruct (step_conn st image) as [-> | (data & Hroot & Hpath & _ & ->)];
        [set_solver|].
      destruct (db_paths_upsert sqlite (conn st) data root_path) as (Hlow & Hup & _).
      rewrite bool_decide_eq_true_2, Hpath in Hup by done. done. }
    set_solver.
Qed.

(** *** Counting *)

(** Once every image is settled, a run without [force] analyzes nothing
    and writes nothing. *)
Lemma loop_settled images st :
  force = false →
  (∀ image, image ∈ images → settled os cv2 root_path (conn st) image) →
  conn (fold_left step images st) = conn st ∧
  analyzed (stats (fold_left step images st)) = analyzed (stats st) ∧
  cached (stats (fold_left step images st))
    + errors (stats (fold_left step images st))
  = cached (stats st) + errors (stats st) + Z.of_nat (length images) ∧
  ((∀ image, image ∈ images → ¬ broken os cv2 image) →
   errors (stats (fold_left step images st)) = errors (stats st)).
Proof.
  intros Hforce. revert st.
  induction images as [|image images IH]; intros st Hset.
  - simpl. repeat split; lia.
  - cbn [fold_left].
    assert (∀ s m a,
              util.get_file_stats os (fst image) = Some (s, m) →
              analysis.analyze_image cv2 (fst image) = Some a →
              storable s m a = true →
              force = true ∨
              get_cached_analysis (conn st) root_path (snd image) s m = Ok None →
              False) as Habsurd.
    { intros s m a Hs Ha Hok [?|Hmiss]; [congruence|].
      destruct (Hset image) as [Hb|(s' & m' & r & Hs' & Hhit)]; [by left | |].
      - by apply (not_broken os cv2 image s m a).
      - congruence. }
    assert (conn (step st image) = conn st ∧
            analyzed (stats (step st image)) = analyzed (stats st) ∧
            cached (stats (step st image)) + errors (stats (step st image))
            = cached (stats st) + errors (stats st) + 1 ∧
            (¬ broken os cv2 image →
             errors (stats (step st image)) = errors (stats st)))
      as (Hc & Ha & Hsum & Herr).
    { destruct (process_one_cases st image)
        as (_ & _ & [(-> & -> & Hwhy)|[(-> & -> & _)|
                     (s & m & a & Hs & Ha & Hmiss & Hok & _)]]).
      - simpl. repeat split; try lia. intros Hnb.
        destruct Hwhy as [?|(s & m & a & Hs & Ha & Hok & Hmiss & _)]; [done|].
        by destruct (Habsurd s m a).
      - simpl. repeat split; lia.
      - exfalso. apply upsert_analysis_Ok_bindable in Hok.
        rewrite storable_bindable in Hok. by destruct (Habsurd s m a). }
    destruct (IH (step st image)) as (IHc & IHa & IHsum & IHerr).
    { intros image' Hin. rewrite Hc. apply Hset. by right. }
    rewrite IHc, IHa, IHsum. repeat split; try done.
    + rewrite length_cons. lia.
    + intros Hok. rewrite IHerr by (intros ? ?; apply Hok; by right).
      apply Herr, Hok. by left.
Qed.

(** After the loop every image of a scan of distinct paths is settled, when
    there was room for a row for each. *)
Lemma loop_settles images st :
  primary_key (conn st) → NoDup (rel_paths images) →
  room (conn st) (length images) →
  ∀ image, image ∈ images →
    settled os cv2 root_path (conn (fold_left step images st)) image.
Proof.
  revert st.
  induction images as [|image images IH]; intros st Hpk Hnd Hroom image' Hin.
  - by apply elem_of_nil in Hin.
  - cbn [fold_left]. simpl in Hnd. apply NoDup_cons in Hnd as [Hfresh Hnd].
    rewrite length_cons in Hroom.
    apply elem_of_cons in Hin as [->|Hin];
      [|by apply IH; [apply step_primary_key| |apply step_room|]].
    assert (settled os cv2 root_path (conn (step st image)) image) as Hs.
    { destruct (process_one_cases st image)
        as (_ & _ & [(_ & _ & Hwhy)|[(-> & _ & _ & Hhit)|
                     (s & m & a & Hs & Ha & _ & Hok & -> & _)]]).
      - destruct Hwhy as [?|(s & m & a & _ & _ & _ & _ & _ & Hfull)]; [by left|].
        destruct Hfull. apply (room_le _ (S (length images))); [lia | done].
      - by right.
      - right. exists s, m.
        destruct (upsert_lookup sqlite (conn st) _ Hok) as (r & Hr & _).
        by exists r. }
    destruct Hs as [Hb|(s & m & r & Hs & Hhit)]; [by left|].
    right. exists s, m, r. split; [done|].
    rewrite loop_lookup_other; [done | by apply step_primary_key | done].
Qed.


End one_run.


(** *** One call of [process_images] *)

Lemma process_images_empty sqlite os cv2 now conn0 input_dir extensions force :
  scan os input_dir extensions = [] →
  process_images sqlite os cv2 now conn0 input_dir extensions force
  = (conn0, Ok {| total := 0; analyzed := 0; cached := 0; errors := 0;
                  deleted := 0 |}).
Proof.
  unfold process_images, scan. intros ->. reflexivity.
Qed.

Lemma process_images_nonempty sqlite os cv2 now conn0 input_dir extensions force :
  scan os input_dir extensions ≠ [] →
  process_images sqlite os cv2 now conn0 input_dir extensions force
  = (let st := after_loop sqlite os cv2 now conn0 input_dir extensions force in
     let reconciliation :=
       delete_missing_files sqlite (conn st) (util.resolve os input_dir)
         (existing_paths st) in
     (fst reconciliation,
      match snd reconciliation with
      | Ok deleted => Ok (set_deleted (stats st) deleted)
      | Raise e => Raise e
      end)).
Proof.
  unfold process_images, after_loop, start, scan. intros Hne.
  destruct (util.find_images os (util.resolve os input_dir) extensions)
    as [|image images] eqn:E; [done|].
  replace (Z.of_nat (length (image :: images)) =? 0) with false
    by (symmetry; apply Z.eqb_neq; rewrite length_cons; lia).
  cbv zeta.
  by destruct (delete_missing_files _ _ _ _) as [conn1 [deleted|e]].
Qed.

Lemma after_loop_existing_paths sqlite os cv2 now conn0 input_dir extensions force :
  existing_paths (after_loop sqlite os cv2 now conn0 input_dir extensions force)
  = list_to_set (rel_paths (scan os input_dir extensions)).
Proof.
  unfold after_loop. rewrite loop_existing_paths. simpl. set_solver.
Qed.

(** The stale paths when the loop has ended are those of the start: the
    loop adds rows of scanned paths only and removes none. *)
Lemma after_loop_stale sqlite os cv2 now conn0 input_dir extensions force :
  let st := after_loop sqlite os cv2 now conn0 input_dir extensions force in
  db_paths (conn st) (util.resolve os input_dir) ∖ existing_paths st
  = stale conn0 (util.resolve os input_dir) (scan os input_dir extensions).
Proof.
  cbv zeta. rewrite after_loop_existing_paths. unfold stale, after_loop.
  destruct (loop_db_paths sqlite os cv2 now (util.resolve os input_dir) force
              (scan os input_dir extensions)
              (start conn0 (Z.of_nat (length (scan os input_dir extensions)))))
    as [Hlow Hup].
  cbn [conn start] in Hlow, Hup. set_solver.
Qed.

(** What a run over a non-empty scan leaves and returns: either the
    reconciliation is done and the run returns the counters of the loop
    with the number of stale paths, or it raises and so does the run, after
    the loop has written its rows. *)
Lemma process_images_outcome sqlite os cv2 now conn0 input_dir extensions force :
  scan os input_dir extensions ≠ [] →
  let st := after_loop sqlite os cv2 now conn0 input_dir extensions force in
  let root_path := util.resolve os input_dir in
  let images := scan os input_dir extensions in
  (reconcilable sqlite conn0 root_path images ∧
   process_images sqlite os cv2 now conn0 input_dir extensions force
   = (reconciled (conn st) root_path (list_to_set (rel_paths images)),
      Ok (set_deleted (stats st)
            (Z.of_nat (size (stale conn0 root_path images)))))) ∨
  (¬ reconcilable sqlite conn0 root_path images ∧
   process_images sqlite os cv2 now conn0 input_dir extensions force
   = (conn st, Raise OperationalError)).
Proof.
  intros Hne. cbv zeta. rewrite process_images_nonempty by done. cbv zeta.
  pose proof (after_loop_stale sqlite os cv2 now conn0 input_dir extensions force)
    as Hstale. cbv zeta in Hstale.
  destruct (delete_missing_files_outcome sqlite
              (conn (after_loop sqlite os cv2 now conn0 input_dir extensions force))
              (util.resolve os input_dir)
              (existing_paths
                 (after_loop sqlite os cv2 now conn0 input_dir extensions force)))
    as [[-> Hfits]|[-> [Hsome Hmany]]]; cbv zeta in *; cbn [fst snd];
    rewrite Hstale in *.
  - left. split; [exact Hfits|].
    by rewrite after_loop_existing_paths.
  - right. split; [|done]. unfold reconcilable. intros [?|?]; [done | lia].
Qed.




Lemma elem_of_rel_paths (images : list (string * string)) image :
  image ∈ images → snd image ∈ rel_paths images.
Proof.
  intros H. apply list_elem_of_In, List.in_map, list_elem_of_In, H.
Qed.

(** A run keeps the [id]s of the table distinct. *)
Lemma process_images_primary_key sqlite os cv2 now conn0 input_dir extensions force :
  primary_key conn0 →
  primary_key
    (fst (process_images sqlite os cv2 now conn0 input_dir extensions force)).
Proof.
  intros Hpk.
  destruct (decide (scan os input_dir extensions = [])) as [Hempty|Hne].
  - by rewrite process_images_empty.
  - rewrite process_images_nonempty by done. cbv zeta. cbn [fst snd].
    apply primary_key_delete_missing_files. unfold after_loop.
    by apply loop_primary_key.
Qed.


(** *** Two runs in a row *)

(** After a run over a non-empty scan that returns, the root has rows for
    scanned paths only. *)
Lemma process_images_db_paths sqlite os cv2 now conn0 input_dir extensions force :
  scan os input_dir extensions ≠ [] →
  returns (snd (process_images sqlite os cv2 now conn0 input_dir extensions force)) →
  db_paths (fst (process_images sqlite os cv2 now conn0 input_dir extensions force))
    (util.resolve os input_dir)
  ⊆ list_to_set (rel_paths (scan os input_dir extensions)).
Proof.
  intros Hne.
  destruct (process_images_outcome sqlite os cv2 now conn0 input_dir extensions
              force Hne) as [[Hfits ->]|[Hnot ->]]; cbn [fst snd].
  - intros _. apply db_paths_reconciled.
  - by intros [? ?].
Qed.

(** After a run every image of a scan of distinct paths is settled. *)
Lemma process_images_settles sqlite os cv2 now conn0 input_dir extensions force :
  primary_key conn0 →
  NoDup (rel_paths (scan os input_dir extensions)) →
  room conn0 (length (scan os input_dir extensions)) →
  ∀ image, image ∈ scan os input_dir extensions →
    settled os cv2 (util.resolve os input_dir)
      (fst (process_images sqlite os cv2 now conn0 input_dir extensions force))
      image.
Proof.
  intros Hpk Hnd Hroom image Hin.
  assert (scan os input_dir extensions ≠ []) as Hne
    by (intros E; rewrite E in Hin; by apply elem_of_nil in Hin).
  rewrite process_images_nonempty by done. cbv zeta. cbn [fst snd].
  destruct (loop_settles sqlite os cv2 now (util.resolve os input_dir) force
              (scan os input_dir extensions)
              (start conn0 (Z.of_nat (length (scan os input_dir extensions))))
              Hpk Hnd Hroom image Hin)
    as [Hb|(s & m & r & Hs & Hhit)]; [by left|].
  right. exists s, m, r. split; [done|].
  rewrite delete_missing_files_lookup; [exact Hhit|].
  intros _. rewrite after_loop_existing_paths.
  by apply elem_of_list_to_set, elem_of_rel_paths.
Qed.

(** C2, as the code has it: when a run over a directory of distinct paths
    has returned, a second run, not forced, over the unchanged directory
    returns too; it analyzes nothing, and every image it does not count as
    cached it counts as an error; it deletes nothing and changes nothing in
    the table.  When every file of the directory can be read, decoded and
    bound, [cached == total].  (The table has distinct ids, and room for a
    row for every image.) *)
Theorem second_run_analyzes_nothing
    sqlite os cv2 now1 now2 conn0 input_dir extensions force1 :
  primary_key conn0 →
  NoDup (rel_paths (scan os input_dir extensions)) →
  room conn0 (length (scan os input_dir extensions)) →
  let run1 :=
    process_images sqlite os cv2 now1 conn0 input_dir extensions force1 in
  let run2 :=
    process_images sqlite os cv2 now2 (fst run1) input_dir extensions false in
  returns (snd run1) →
  ∃ counters, snd run2 = Ok counters ∧
    analyzed counters = 0 ∧
    cached counters = total counters - errors counters ∧
    total counters = Z.of_nat (length (scan os input_dir extensions)) ∧
    ((∀ image, image ∈ scan os input_dir extensions → ¬ broken os cv2 image) →
     errors counters = 0 ∧ cached counters = total counters) ∧
    deleted counters = 0 ∧
    fst run2 = fst run1.
Proof.
  intros Hpk Hnd Hroom run1 run2 Hret.
  destruct (decide (scan os input_dir extensions = [])) as [Hempty|Hne].
  - subst run2 run1. rewrite !process_images_empty by done. cbn [fst snd].
    eexists. split; [reflexivity|]. rewrite Hempty. simpl. repeat split; lia.
  - pose proof (process_images_settles sqlite os cv2 now1 conn0 input_dir
                  extensions force1 Hpk Hnd Hroom) as Hset.
    pose proof (process_images_db_paths sqlite os cv2 now1 conn0 input_dir
                  extensions force1 Hne Hret) as Hpaths.
    fold run1 in Hset, Hpaths.
    destruct (loop_settled sqlite os cv2 now2 (util.resolve os input_dir) false
                (scan os input_dir extensions)
                (start (fst run1) (Z.of_nat (length (scan os input_dir extensions))))
                eq_refl Hset)
      as (Hconn & Han & Hsum & Herr).
    pose proof (loop_total sqlite os cv2 now2 (util.resolve os input_dir) false
                  (scan os input_dir extensions)
                  (start (fst run1) (Z.of_nat (length (scan os input_dir extensions)))))
      as Htot.
    change (fold_left _ _ _)
      with (after_loop sqlite os cv2 now2 (fst run1) input_dir extensions false)
      in Hconn, Han, Hsum, Herr, Htot.
    cbn [conn stats start analyzed cached errors total] in Hconn, Han, Hsum, Herr, Htot.
    assert (stale (fst run1) (util.resolve os input_dir)
              (scan os input_dir extensions) = ∅) as Hnothing
      by (unfold stale; set_solver).
    destruct (process_images_outcome sqlite os cv2 now2 (fst run1) input_dir
                extensions false Hne) as [[_ Hrun2]|[Hnot _]];
      [|destruct Hnot; by left].
    fold run2 in Hrun2. rewrite Hrun2. cbn [fst snd].
    eexists. split; [reflexivity|].
    rewrite Hnothing, size_empty.
    cbn [set_deleted analyzed cached errors total deleted].
    split; [lia|]. split; [lia|]. split; [done|]. split; [|split; [done|]].
    + intros Hok. apply Herr in Hok. lia.
    + pose proof (after_loop_stale sqlite os cv2 now2 (fst run1) input_dir
                    extensions false) as Hs. cbv zeta in Hs.
      rewrite after_loop_existing_paths, Hnothing in Hs.
      by rewrite reconciled_nothing.
Qed.

(** *** A run with one file that cannot be processed *)




(** The exit status of [main] for a directory that exists: 1 when the run
    raised, 0 when it counted no error, 1 otherwise. *)
Lemma main_exit_status sqlite os cv2 now conn0 args :
  util.exists_ os (input_dir args) = true →
  util.is_dir os (input_dir args) = true →
  main sqlite os cv2 now conn0 args
  = (fst (process_images sqlite os cv2 now conn0 (input_dir args)
            (extensions args) (force args)),
     match snd (process_images sqlite os cv2 now conn0 (input_dir args)
                  (extensions args) (force args)) with
     | Raise _ => 1
     | Ok counters => if errors counters =? 0 then 0 else 1
     end).
Proof.
  intros He Hd. unfold main. rewrite He, Hd. simpl.
  by destruct (process_images _ _ _ _ _ _ _ _) as [conn1 [counters|e]].
Qed.




(** *** A file removed between two runs *)

(** C1, as the code has it: when a file that has a row after one run that
    returned is gone at the next, the scan still finds at least one image,
    and SQLite allows a statement two parameters, the next run returns with
    [deleted == 1] and [get_all_analyses_for_root] no longer returns the
    path.  A call of [delete_missing_files] that returns has removed
    exactly the rows of the root whose path is not among the paths it was
    given, and returns their number of paths; with more such paths than
    parameters left it raises and removes nothing. *)
Theorem removed_file_is_reconciled
    sqlite os1 os2 cv1 cv2 now1 now2 conn0 input_dir extensions force1 force2 p :
  util.resolve os2 input_dir = util.resolve os1 input_dir →
  2 ≤ variable_number sqlite →
  let root_path := util.resolve os1 input_dir in
  let run1 :=
    process_images sqlite os1 cv1 now1 conn0 input_dir extensions force1 in
  let run2 :=
    process_images sqlite os2 cv2 now2 (fst run1) input_dir extensions force2 in
  returns (snd run1) →
  p ∈ rel_paths (scan os1 input_dir extensions) →
  (∃ r, r ∈ fst run1 ∧ key r = (root_path, p)) →
  (∀ q, q ∈ rel_paths (scan os2 input_dir extensions) ↔
        q ∈ rel_paths (scan os1 input_dir extensions) ∧ q ≠ p) →
  scan os2 input_dir extensions ≠ [] →
  (∃ counters, snd run2 = Ok counters ∧ deleted counters = 1) ∧
  (∀ r, r ∈ get_all_analyses_for_root (fst run2) root_path → path (cols r) ≠ p) ∧
  (∀ r, r ∈ fst run2 ↔
        r ∈ conn (after_loop sqlite os2 cv2 now2 (fst run1) input_dir extensions
                    force2) ∧
        ¬ (root (cols r) = root_path ∧
           path (cols r) ∉ rel_paths (scan os2 input_dir extensions))) ∧
  (∀ conn root0 existing_paths,
     (∀ n, snd (delete_missing_files sqlite conn root0 existing_paths) = Ok n →
        n = Z.of_nat (size (db_paths conn root0 ∖ existing_paths)) ∧
        ∀ r, r ∈ fst (delete_missing_files sqlite conn root0 existing_paths) ↔
             r ∈ conn ∧
             ¬ (root (cols r) = root0 ∧ path (cols r) ∉ existing_paths)) ∧
     (∀ e, snd (delete_missing_files sqlite conn root0 existing_paths) = Raise e →
        fst (delete_missing_files sqlite conn root0 existing_paths) = conn ∧
        variable_number sqlite
        < 1 + Z.of_nat (size (db_paths conn root0 ∖ existing_paths)))).
Proof.
  intros Hroot Hlimit root_path run1 run2 Hret1 Hp Hrow Hscan Hne2.
  assert (scan os1 input_dir extensions ≠ []) as Hne1.
  { intros E. rewrite E in Hp. by apply elem_of_nil in Hp. }
  pose proof (process_images_db_paths sqlite os1 cv1 now1 conn0 input_dir
                extensions force1 Hne1 Hret1) as Hsub.
  fold run1 root_path in Hsub.
  apply elem_of_db_paths in Hrow.
  assert (stale (fst run1) root_path (scan os2 input_dir extensions) = {[ p ]})
    as Hgone.
  { unfold stale. apply set_eq. intros q.
    rewrite elem_of_difference, elem_of_singleton, elem_of_list_to_set, Hscan.
    split.
    - intros [Hq Hn]. apply Hsub, elem_of_list_to_set in Hq.
      destruct (decide (q = p)); [done|]. exfalso. by apply Hn.
    - intros ->. split; [done|]. by intros [_ ?]. }
  destruct (process_images_outcome sqlite os2 cv2 now2 (fst run1) input_dir
              extensions force2 Hne2) as [[_ Hrun2]|[Hnot _]].
  2: { destruct Hnot. right. rewrite Hroot. fold root_path.
       rewrite Hgone, size_singleton. simpl. lia. }
  fold run2 in Hrun2. rewrite Hroot in Hrun2. fold root_path in Hrun2.
  rewrite Hgone, size_singleton in Hrun2.
  split; [|split; [|split]].
  - rewrite Hrun2. cbn [snd]. eexists. split; reflexivity.
  - rewrite Hrun2. cbn [fst].
    intros r [[Hr Hn]%elem_of_reconciled Hrt]%elem_of_get_all_analyses_for_root
      Hpath.
    apply Hn. split; [done|]. rewrite elem_of_list_to_set, Hscan, Hpath.
    by intros [_ ?].
  - rewrite Hrun2. cbn [fst]. intros r.
    by rewrite elem_of_reconciled, elem_of_list_to_set.
  - intros conn root0 existing.
    destruct (delete_missing_files_outcome sqlite conn root0 existing)
      as [[-> _]|[-> [_ Hmany]]]; cbv zeta in *; cbn [fst snd].
    + split; [|discriminate]. intros n [= <-]. split; [done|].
      intros r. apply elem_of_reconciled.
    + split; [discriminate|]. by intros e _.
Qed.

(** *** The theorems on the directory [/photos] *)


Lemma second_run_analyzes_nothing_witness :
  let run1 := examples.run [examples.a_jpg; examples.bad_jpg] false [] in
  let run2 := examples.run [examples.a_jpg; examples.bad_jpg] false (fst run1) in
  ∃ counters, snd run2 = Ok counters ∧
    analyzed counters = 0 ∧
    cached counters = total counters - errors counters.
Proof.
  intros run1 run2.
  assert (primary_key []) as Hpk by apply NoDup_nil_2.
  assert (NoDup (rel_paths (scan (examples.os [examples.a_jpg; examples.bad_jpg])
                              "/photos" ∅))) as Hnd.
  { apply (bool_decide_unpack _). vm_compute. exact I. }
  assert (room [] (length (scan (examples.os [examples.a_jpg; examples.bad_jpg])
                             "/photos" ∅))) as Hroom
    by (by vm_compute).
  destruct (second_run_analyzes_nothing examples.sqlite
              (examples.os [examples.a_jpg; examples.bad_jpg]) examples.cv2
              examples.clock examples.clock [] "/photos" ∅ false Hpk Hnd Hroom)
    as (counters & Hrun2 & H1 & H2 & _).
  { eexists. by vm_compute. }
  exists counters. split; [exact Hrun2|]. split; [exact H1 | exact H2].
Defined.


Lemma removed_file_is_reconciled_witness :
  let run1 := examples.run [examples.a_jpg; examples.b_jpg] false [] in
  let run2 := examples.run [examples.b_jpg] false (fst run1) in
  (∃ counters, snd run2 = Ok counters ∧ deleted counters = 1) ∧
  ∀ r, r ∈ get_all_analyses_for_root (fst run2) "/photos" →
       path (cols r) ≠ "a.jpg".
Proof.
  intros run1 run2.
  destruct (removed_file_is_reconciled examples.sqlite
              (examples.os [examples.a_jpg; examples.b_jpg])
              (examples.os [examples.b_jpg])
              examples.cv2 examples.cv2 examples.clock examples.clock
              [] "/photos" ∅ false false "a.jpg" eq_refl)
    as (H1 & H2 & _).
  - by vm_compute.
  - eexists. by vm_compute.
  - left.
  - vm_compute. eexists. split; [left | reflexivity].
  - intros q. change (q ∈ ["b.jpg"] ↔ q ∈ ["a.jpg"; "b.jpg"] ∧ q ≠ "a.jpg").
    rewrite !elem_of_cons, elem_of_nil. split.
    + intros [->|[]]. split; [by right; left | discriminate].
    + intros [[->|[->|[]]] Hne]; [done | by left].
  - discriminate.
  - split; [exact H1 | exact H2].
Defined.

(** *** Where the statements of the specification fail *)

(** C1 fails when the removed file was the last image of the directory:
    the scan is empty, [process_images] returns at once, [deleted] is 0 and
    the row is still listed. *)
Lemma last_file_removed_is_not_reconciled :
  let run1 := examples.run [examples.a_jpg] false [] in
  let run2 := examples.run [] false (fst run1) in
  (∃ r, r ∈ fst run1 ∧ key r = ("/photos", "a.jpg")) ∧
  (∃ counters, snd run2 = Ok counters ∧
     deleted counters = 0 ∧ deleted counters ≠ 1) ∧
  ∃ r, r ∈ get_all_analyses_for_root (fst run2) "/photos" ∧
       path (cols r) = "a.jpg".
Proof.
  vm_compute. split; [|split].
  - eexists. split; [left | reflexivity].
  - eexists. split; [reflexivity|]. split; [reflexivity | discriminate].
  - eexists. split; [left | reflexivity].
Qed.

(** C2 fails on a directory with an image that does not decode: the second
    run counts it as an error again, so [cached] is 1 and [total] is 2. *)
Lemma second_run_counts_the_corrupt_image_again :
  let run1 := examples.run [examples.a_jpg; examples.bad_jpg] false [] in
  let run2 := examples.run [examples.a_jpg; examples.bad_jpg] false (fst run1) in
  returns (snd run1) ∧
  ∃ counters, snd run2 = Ok counters ∧
    analyzed counters = 0 ∧ errors counters = 1 ∧
    cached counters = 1 ∧ total counters = 2 ∧
    cached counters ≠ total counters.
Proof.
  vm_compute. split; [by eexists|]. eexists. split; [reflexivity|].
  repeat split; discriminate.
Qed.


End pipeline_facts.

(** * Further properties of the code *)

(** ** More on the image analyzer *)
Module analysis_more.
Import analysis.

Lemma float_le_true a b : float_le a b = true ↔ (a <= b)%Q.
Proof. unfold float_le. apply Qle_bool_iff. Qed.

Lemma float_le_false a b : float_le a b = false ↔ (b < a)%Q.
Proof.
  unfold float_le. split.
  - intros H. apply Qnot_le_lt. intros Hle%Qle_bool_iff. congruence.
  - intros H. apply not_true_is_false. intros Hle%Qle_bool_iff. lra.
Qed.

(** X1: the centering score [s] is "well_centered" exactly when
    [s <= 0.15], "somewhat_centered" exactly when [0.15 < s <= 0.35] and
    "off_center" exactly when [s > 0.35]: each threshold belongs to the band
    below it. *)
Theorem categorize_centering_bands (s : Q) :
  (categorize_centering s = "well_centered" ↔ (s <= 0.15)%Q) ∧
  (categorize_centering s = "somewhat_centered" ↔ (0.15 < s)%Q ∧ (s <= 0.35)%Q) ∧
  (categorize_centering s = "off_center" ↔ (0.35 < s)%Q).
Proof.
  unfold categorize_centering, CENTER_THRESHOLD_WELL, CENTER_THRESHOLD_SOMEWHAT.
  change (15 # 100)%Q with 0.15%Q. change (35 # 100)%Q with 0.35%Q.
  destruct (float_le s 0.15) eqn:E1;
    [apply float_le_true in E1 | apply float_le_false in E1];
    (destruct (float_le s 0.35) eqn:E2;
     [apply float_le_true in E2 | apply float_le_false in E2]).
  all: repeat split; intros; try done; try discriminate; try lra.
Qed.

(** The result of the fold in [max_by], seen from the list. *)
Lemma fold_max_by_split (l : list BBox) (x : BBox) :
  let b :=
    fold_left (fun best y => if area_key best <? area_key y then y else best)
      l x in
  ∃ l1 l2, x :: l = l1 ++ b :: l2 ∧
    (∀ d, d ∈ l1 → area_key d < area_key b) ∧
    (∀ d, d ∈ l2 → area_key d ≤ area_key b).
Proof.
  revert x. induction l as [|y l IH]; intros x; cbn [fold_left].
  - exists [], []. split; [done|].
    split; intros d Hd; by apply elem_of_nil in Hd.
  - destruct (area_key x <? area_key y) eqn:E.
    + apply Z.ltb_lt in E.
      destruct (IH y) as (l1 & l2 & Heq & Hlt & Hle). cbv zeta in *.
      set (b := fold_left _ l y) in *.
      exists (x :: l1), l2. split; [by rewrite Heq|]. split; [|done].
      intros d [->|Hd]%elem_of_cons; [|by apply Hlt].
      destruct l1 as [|z l1]; simpl in Heq; injection Heq as Hhead Htail.
      * by rewrite <- Hhead.
      * specialize (Hlt z ltac:(by left)). rewrite <- Hhead in Hlt. lia.
    + apply Z.ltb_ge in E.
      destruct (IH x) as (l1 & l2 & Heq & Hlt & Hle). cbv zeta in *.
      set (b := fold_left _ l x) in *.
      destruct l1 as [|z l1]; simpl in Heq; injection Heq as Hhead Htail.
      * exists [], (y :: l2). split; [simpl; by rewrite <- Hhead, Htail|]. split.
        -- intros d Hd. by apply elem_of_nil in Hd.
        -- intros d [->|Hd]%elem_of_cons; [by rewrite <- Hhead | by apply Hle].
      * exists (x :: y :: l1), l2.
        split; [simpl; by rewrite Htail|]. split; [|done].
        intros d [->|[->|Hd]%elem_of_cons]%elem_of_cons.
        -- apply Hlt. rewrite <- Hhead. by left.
        -- specialize (Hlt z ltac:(by left)). rewrite <- Hhead in Hlt. lia.
        -- apply Hlt. by right.
Qed.

Lemma get_largest_detection_split (detections : list BBox) (b : BBox) :
  get_largest_detection detections = Some b →
  ∃ l1 l2, detections = l1 ++ b :: l2 ∧
    (∀ d, d ∈ l1 → area_key d < area_key b) ∧
    (∀ d, d ∈ detections → area_key d ≤ area_key b).
Proof.
  unfold get_largest_detection, max_by.
  destruct detections as [|x l]; [discriminate|]. intros [= <-].
  destruct (fold_max_by_split l x) as (l1 & l2 & Heq & Hlt & Hle).
  cbv zeta in *. unfold area_key in *.
  exists l1, l2. split; [exact Heq|]. split; [exact Hlt|].
  intros d Hd. rewrite Heq in Hd.
  apply elem_of_app in Hd as [Hd|[->|Hd]%elem_of_cons].
  - specialize (Hlt d Hd). lia.
  - lia.
  - by apply Hle.
Qed.

(** The product of the sides of a small box does not wrap. *)
Lemma area_key_small (d : BBox) : small_box d → area_key d = area d.
Proof.
  destruct d as [[[x y] w] h]. unfold small_box, area_key, area, int32_mul.
  intros [Hw Hh]. rewrite Z.mod_small; [lia|].
  change (2 ^ 31) with 2147483648. change (2 ^ 32) with 4294967296. nia.
Qed.

(** X2: [get_largest_detection] returns nothing exactly for the empty
    list; otherwise it returns a box of the list whose key no other box
    exceeds, and among the boxes of that key the first one.  The key is the
    product of the width and the height in 32 bits; when no side of a box
    exceeds 46340 pixels it is the area, and the box returned is the first
    of the largest area. *)
Theorem get_largest_detection_first_of_greatest_area (detections : list BBox) :
  (get_largest_detection detections = None ↔ detections = []) ∧
  (∀ b, get_largest_detection detections = Some b →
     ∃ l1 l2, detections = l1 ++ b :: l2 ∧
       (∀ d, d ∈ l1 → area_key d < area_key b) ∧
       (∀ d, d ∈ detections → area_key d ≤ area_key b)) ∧
  (∀ d, small_box d → area_key d = area d) ∧
  (Forall small_box detections →
   ∀ b, get_largest_detection detections = Some b →
     ∃ l1 l2, detections = l1 ++ b :: l2 ∧
       (∀ d, d ∈ l1 → area d < area b) ∧
       (∀ d, d ∈ detections → area d ≤ area b)).
Proof.
  split; [|split; [apply get_largest_detection_split|
                   split; [apply area_key_small|]]].
  - unfold get_largest_detection, max_by. by destruct detections.
  - intros Hsmall b Hb.
    destruct (get_largest_detection_split detections b Hb)
      as (l1 & l2 & Heq & Hlt & Hle).
    rewrite Forall_forall in Hsmall.
    assert (b ∈ detections) as Hin
      by (rewrite Heq; apply elem_of_app; right; by left).
    exists l1, l2. split; [exact Heq|]. split.
    + intros d Hd. rewrite <- !area_key_small; [by apply Hlt | by apply Hsmall|].
      apply Hsmall. rewrite Heq. apply elem_of_app. by left.
    + intros d Hd. rewrite <- !area_key_small; [by apply Hle | by apply Hsmall..].
Qed.

(** *** Rounding against the thresholds *)

Lemma Zle_Q (a b : Z) : a ≤ b ↔ (inject_Z a <= inject_Z b)%Q.
Proof. by rewrite Zle_Qle. Qed.

Lemma Zlt_Q (a b : Z) : a < b ↔ (inject_Z a < inject_Z b)%Q.
Proof. by rewrite Zlt_Qlt. Qed.

Lemma inject_Z_succ (a : Z) : (inject_Z (a + 1) == inject_Z a + 1)%Q.
Proof. by rewrite inject_Z_plus. Qed.

Lemma round_half_even_ge_even (k : Z) (q : Q) :
  Z.even k = true →
  k ≤ round_half_even q ↔ (inject_Z k - (1 # 2) <= q)%Q.
Proof.
  intros Hk. unfold round_half_even.
  pose proof (Qfloor_le q) as Hlo. pose proof (Qlt_floor q) as Hhi.
  rewrite inject_Z_succ in Hhi. set (f := Qfloor q) in *.
  destruct (Qcompare_spec (q - inject_Z f) (1 # 2)) as [H|H|H].
  - destruct (Z.even f) eqn:Hf.
    + split; [intros Hkf%Zle_Q; lra|]. intros Hq.
      assert (k < f + 2) as Hk1
        by (apply Zlt_Q; rewrite inject_Z_plus; change (inject_Z 2) with 2%Q; lra).
      destruct (decide (k = f + 1)) as [->|]; [|lia].
      rewrite Z.even_add, Hf in Hk. discriminate.
    + split; [intros Hkf%Zle_Q; rewrite inject_Z_succ in Hkf; lra|]. intros Hq.
      assert (k < f + 2); [|lia].
      apply Zlt_Q. rewrite inject_Z_plus. change (inject_Z 2) with 2%Q. lra.
  - split; [intros Hkf%Zle_Q; lra|]. intros Hq.
    assert (k < f + 1); [|lia].
    apply Zlt_Q. rewrite inject_Z_succ. lra.
  - split; [intros Hkf%Zle_Q; rewrite inject_Z_succ in Hkf; lra|]. intros Hq.
    assert (k < f + 2); [|lia].
    apply Zlt_Q. rewrite inject_Z_plus. change (inject_Z 2) with 2%Q. lra.
Qed.

Lemma round_half_even_le_even (k : Z) (q : Q) :
  Z.even k = true →
  round_half_even q ≤ k ↔ (q <= inject_Z k + (1 # 2))%Q.
Proof.
  intros Hk. unfold round_half_even.
  pose proof (Qfloor_le q) as Hlo. pose proof (Qlt_floor q) as Hhi.
  rewrite inject_Z_succ in Hhi. set (f := Qfloor q) in *.
  destruct (Qcompare_spec (q - inject_Z f) (1 # 2)) as [H|H|H].
  - destruct (Z.even f) eqn:Hf.
    + split; [intros Hkf%Zle_Q; lra|]. intros Hq.
      assert (f < k + 1); [|lia].
      apply Zlt_Q. rewrite inject_Z_succ. lra.
    + split; [intros Hkf%Zle_Q; rewrite inject_Z_succ in Hkf; lra|]. intros Hq.
      assert (f < k + 1) as Hk1 by (apply Zlt_Q; rewrite inject_Z_succ; lra).
      destruct (decide (f = k)) as [->|]; [|lia]. congruence.
  - split; [intros Hkf%Zle_Q; lra|]. intros Hq.
    assert (f < k + 1); [|lia].
    apply Zlt_Q. rewrite inject_Z_succ. lra.
  - split; [intros Hkf%Zle_Q; rewrite inject_Z_succ in Hkf; lra|]. intros Hq.
    assert (f < k); [|lia]. apply Zlt_Q. lra.
Qed.

Lemma round_as_quotient (x : Q) (n : nat) :
  (round x n
   == inject_Z (round_half_even (x * inject_Z (10 ^ Z.of_nat n)))
      / inject_Z (10 ^ Z.of_nat n))%Q.
Proof. unfold round. apply Qred_correct. Qed.

Lemma round_2_ge_sharp (x : Q) : (150 <= round x 2)%Q ↔ (149.995 <= x)%Q.
Proof.
  rewrite round_as_quotient. change (inject_Z (10 ^ Z.of_nat 2)) with 100%Q.
  pose proof (round_half_even_ge_even 15000 (x * 100) eq_refl) as H.
  rewrite Zle_Q in H. change (inject_Z 15000) with 15000%Q in H.
  set (m := inject_Z (round_half_even (x * 100))) in *.
  unfold Qdiv. change (/ 100)%Q with (1 # 100)%Q.
  split; intros Hx.
  - assert (15000 <= m)%Q as Hm by lra. apply H in Hm. lra.
  - assert (15000 <= m)%Q as Hm by (apply H; lra). lra.
Qed.

Lemma round_2_ge_soft (x : Q) : (50 <= round x 2)%Q ↔ (49.995 <= x)%Q.
Proof.
  rewrite round_as_quotient. change (inject_Z (10 ^ Z.of_nat 2)) with 100%Q.
  pose proof (round_half_even_ge_even 5000 (x * 100) eq_refl) as H.
  rewrite Zle_Q in H. change (inject_Z 5000) with 5000%Q in H.
  set (m := inject_Z (round_half_even (x * 100))) in *.
  unfold Qdiv. change (/ 100)%Q with (1 # 100)%Q.
  split; intros Hx.
  - assert (5000 <= m)%Q as Hm by lra. apply H in Hm. lra.
  - assert (5000 <= m)%Q as Hm by (apply H; lra). lra.
Qed.

Lemma round_4_le_well (c : Q) : (round c 4 <= 0.15)%Q ↔ (c <= 0.15005)%Q.
Proof.
  rewrite round_as_quotient. change (inject_Z (10 ^ Z.of_nat 4)) with 10000%Q.
  pose proof (round_half_even_le_even 1500 (c * 10000) eq_refl) as H.
  rewrite Zle_Q in H. change (inject_Z 1500) with 1500%Q in H.
  set (m := inject_Z (round_half_even (c * 10000))) in *.
  unfold Qdiv. change (/ 10000)%Q with (1 # 10000)%Q.
  split; intros Hc.
  - assert (m <= 1500)%Q as Hm by lra. apply H in Hm. lra.
  - assert (m <= 1500)%Q as Hm by (apply H; lra). lra.
Qed.

Lemma round_4_le_somewhat (c : Q) : (round c 4 <= 0.35)%Q ↔ (c <= 0.35005)%Q.
Proof.
  rewrite round_as_quotient. change (inject_Z (10 ^ Z.of_nat 4)) with 10000%Q.
  pose proof (round_half_even_le_even 3500 (c * 10000) eq_refl) as H.
  rewrite Zle_Q in H. change (inject_Z 3500) with 3500%Q in H.
  set (m := inject_Z (round_half_even (c * 10000))) in *.
  unfold Qdiv. change (/ 10000)%Q with (1 # 10000)%Q.
  split; intros Hc.
  - assert (m <= 3500)%Q as Hm by lra. apply H in Hm. lra.
  - assert (m <= 3500)%Q as Hm by (apply H; lra). lra.
Qed.

(** The category of a rounded blur score is the category of the raw score
    except just below a threshold. *)
Lemma categorize_blur_round (x : Q) :
  categorize_blur (round x 2) = categorize_blur x ↔
  ¬ ((149.995 <= x)%Q ∧ (x < 150)%Q) ∧ ¬ ((49.995 <= x)%Q ∧ (x < 50)%Q).
Proof.
  pose proof (round_2_ge_sharp x) as H150. pose proof (round_2_ge_soft x) as H50.
  unfold categorize_blur, BLUR_THRESHOLD_SHARP, BLUR_THRESHOLD_SOFT.
  destruct (float_ge (round x 2) 150) eqn:E1;
    [apply analysis_facts.float_ge_true in E1
    |apply analysis_facts.float_ge_false in E1];
  (destruct (float_ge (round x 2) 50) eqn:E2;
    [apply analysis_facts.float_ge_true in E2
    |apply analysis_facts.float_ge_false in E2]);
  (destruct (float_ge x 150) eqn:E3;
    [apply analysis_facts.float_ge_true in E3
    |apply analysis_facts.float_ge_false in E3]);
  (destruct (float_ge x 50) eqn:E4;
    [apply analysis_facts.float_ge_true in E4
    |apply analysis_facts.float_ge_false in E4]).
  all: split; [intros Heq; try discriminate Heq; split; intros [? ?]; lra|].
  all: intros [Hn1 Hn2]; try reflexivity; exfalso.
  all: try (apply Hn1; split; lra); try (apply Hn2; split; lra); try lra.
Qed.

(** The category of a rounded centering score is the category of the raw
    score except just above a threshold. *)
Lemma categorize_centering_round (c : Q) :
  categorize_centering (round c 4) = categorize_centering c ↔
  ¬ ((0.15 < c)%Q ∧ (c <= 0.15005)%Q) ∧ ¬ ((0.35 < c)%Q ∧ (c <= 0.35005)%Q).
Proof.
  pose proof (round_4_le_well c) as Hw. pose proof (round_4_le_somewhat c) as Hs.
  unfold categorize_centering, CENTER_THRESHOLD_WELL, CENTER_THRESHOLD_SOMEWHAT.
  change (15 # 100)%Q with 0.15%Q. change (35 # 100)%Q with 0.35%Q.
  destruct (float_le (round c 4) 0.15) eqn:E1;
    [apply float_le_true in E1 | apply float_le_false in E1];
  (destruct (float_le (round c 4) 0.35) eqn:E2;
    [apply float_le_true in E2 | apply float_le_false in E2]);
  (destruct (float_le c 0.15) eqn:E3;
    [apply float_le_true in E3 | apply float_le_false in E3]);
  (destruct (float_le c 0.35) eqn:E4;
    [apply float_le_true in E4 | apply float_le_false in E4]).
  all: split; [intros Heq; try discriminate Heq; split; intros [? ?]; lra|].
  all: intros [Hn1 Hn2]; try reflexivity; exfalso.
  all: try (apply Hn1; split; lra); try (apply Hn2; split; lra); try lra.
Qed.

(** X3: in the result of [analyze_image] the stored blur category is the
    category of the stored blur score unless the raw score lies in
    [[149.995, 150.0)] or [[49.995, 50.0)], and the stored centering
    category is the category of the stored centering score unless the raw
    score lies in [(0.15, 0.15005]] or [(0.35, 0.35005]]. *)
Theorem stored_category_agrees_with_stored_score
    (cv2 : Cv2) (image_path : string) (color_image : Image cv2) :
  imread cv2 image_path = Some color_image →
  ∃ a, analyze_image cv2 image_path = Some a ∧
    (categorize_blur (blur_score a) = blur_category a ↔
     ¬ ((149.995 <= calculate_blur_score cv2 (cvtColor cv2 color_image))%Q ∧
        (calculate_blur_score cv2 (cvtColor cv2 color_image) < 150)%Q) ∧
     ¬ ((49.995 <= calculate_blur_score cv2 (cvtColor cv2 color_image))%Q ∧
        (calculate_blur_score cv2 (cvtColor cv2 color_image) < 50)%Q)) ∧
    (categorize_centering (center_score a) = center_category a ↔
     ¬ ((0.15 < raw_center_score cv2 color_image)%Q ∧
        (raw_center_score cv2 color_image <= 0.15005)%Q) ∧
     ¬ ((0.35 < raw_center_score cv2 color_image)%Q ∧
        (raw_center_score cv2 color_image <= 0.35005)%Q)).
Proof.
  intros Himg. unfold analyze_image, raw_center_score. rewrite Himg.
  destruct (shape cv2 color_image) as [h w]. cbn [fst snd].
  eexists. split; [reflexivity|]. cbn [blur_score blur_category center_score center_category].
  split; [apply categorize_blur_round | apply categorize_centering_round].
Qed.

Lemma stored_category_agrees_with_stored_score_witness :
  ∃ a, analyze_image examples.cv2 "/photos/a.jpg" = Some a ∧
       categorize_centering (center_score a) = center_category a.
Proof.
  destruct (stored_category_agrees_with_stored_score examples.cv2
              "/photos/a.jpg" "/photos/a.jpg" eq_refl) as (a & Ha & _ & Hc).
  exists a. split; [exact Ha|]. apply Hc.
  split; intros [H _]; revert H; vm_compute; discriminate.
Defined.

(** X15: [analyze_image] fails exactly when the image cannot be loaded.
    In a result, [has_person] and [has_pet] say whether the face and the
    cat-face detector returned a box; a detector whose cascade did not load
    returns none, so its flag is false for every image, and with both
    cascades missing every image gets the centering score 0.0 and the
    category "well_centered". *)
Theorem analyze_image_detection_flags (cv2 : Cv2) (image_path : string) :
  (analyze_image cv2 image_path = None ↔ imread cv2 image_path = None) ∧
  (∀ color_image a,
     imread cv2 image_path = Some color_image →
     analyze_image cv2 image_path = Some a →
     (height a, width a) = shape cv2 color_image ∧
     (has_person a = true ↔ detect_faces cv2 (cvtColor cv2 color_image) ≠ []) ∧
     (has_pet a = true ↔ detect_cat_faces cv2 (cvtColor cv2 color_image) ≠ []) ∧
     (face_cascade_empty cv2 = true → has_person a = false) ∧
     (cat_cascade_empty cv2 = true → has_pet a = false) ∧
     (face_cascade_empty cv2 = true → cat_cascade_empty cv2 = true →
      center_score a = 0%Q ∧ center_category a = "well_centered")).
Proof.
  unfold analyze_image. split.
  - destruct (imread cv2 image_path) as [color_image|]; [|done].
    by destruct (shape cv2 color_image).
  - intros color_image a ->. destruct (shape cv2 color_image) as [h w].
    intros [= <-]. cbn [height width has_person has_pet center_score center_category].
    assert (∀ l : list BBox, (0 <? Z.of_nat (length l)) = true ↔ l ≠ []) as Hlen.
    { intros [|d l]; [by split|]. split; [done|]. intros _.
      apply Z.ltb_lt. rewrite length_cons. lia. }
    split; [done|]. split; [apply Hlen|]. split; [apply Hlen|].
    unfold detect_faces, detect_cat_faces.
    split; [by intros ->|]. split; [by intros ->|].
    intros -> ->. simpl. split; reflexivity.
Qed.

End analysis_more.

(** ** More on the store *)
Module db_more.
Import db db_facts.

(** *** The order of [ORDER BY path] *)

Lemma string_compare_trans (s1 s2 s3 : string) :
  String.compare s1 s2 ≠ Gt → String.compare s2 s3 ≠ Gt →
  String.compare s1 s3 ≠ Gt.
Proof.
  revert s2 s3. induction s1 as [|c1 s1 IH]; intros [|c2 s2] [|c3 s3]; simpl;
    try done.
  unfold Ascii.compare.
  destruct (N.compare_spec (Ascii.N_of_ascii c1) (Ascii.N_of_ascii c2)) as [H12|H12|H12];
    destruct (N.compare_spec (Ascii.N_of_ascii c2) (Ascii.N_of_ascii c3)) as [H23|H23|H23];
    destruct (N.compare_spec (Ascii.N_of_ascii c1) (Ascii.N_of_ascii c3)) as [H13|H13|H13];
    try done; try lia.
  apply IH.
Qed.

#[global] Instance path_le_total : Total path_le.
Proof.
  intros r1 r2. unfold path_le.
  destruct (String.leb_total (path (cols r1)) (path (cols r2))) as [H|H];
    rewrite H; [by left | by right].
Qed.

#[global] Instance path_le_trans : Transitive path_le.
Proof.
  intros r1 r2 r3. unfold path_le, String.leb.
  pose proof (string_compare_trans (path (cols r1)) (path (cols r2))
                (path (cols r3))) as Htrans.
  destruct (String.compare (path (cols r1)) (path (cols r2)));
    destruct (String.compare (path (cols r2)) (path (cols r3)));
    destruct (String.compare (path (cols r1)) (path (cols r3)));
    simpl; try done; intros _ _; by apply Htrans.
Qed.

Lemma get_all_analyses_for_root_sorted_parts (conn : Table) (root0 : string) :
  StronglySorted path_le (get_all_analyses_for_root conn root0) ∧
  get_all_analyses_for_root conn root0
    ≡ₚ List.filter (fun r => bool_decide (root (cols r) = root0)) conn ∧
  (∀ r, r ∈ get_all_analyses_for_root conn root0 ↔
        r ∈ conn ∧ root (cols r) = root0).
Proof.
  split; [apply StronglySorted_merge_sort; apply _|].
  split; [apply merge_sort_Permutation|].
  apply elem_of_get_all_analyses_for_root.
Qed.


(** *** One row per key *)

Lemma unique_keys_inj conn r1 r2 :
  unique_keys conn → r1 ∈ conn → r2 ∈ conn → key r1 = key r2 → r1 = r2.
Proof.
  unfold unique_keys. induction conn as [|r conn IH]; simpl.
  - intros _ H. by apply elem_of_nil in H.
  - assert (∀ x, x ∈ conn → key x ∈ List.map key conn) as Hmap
      by (intros x Hx; apply list_elem_of_In, List.in_map, list_elem_of_In, Hx).
    intros [Hr Hnd]%NoDup_cons [->|H1]%elem_of_cons [->|H2]%elem_of_cons Heq;
      try done.
    + exfalso. apply Hr. rewrite Heq. by apply Hmap.
    + exfalso. apply Hr. rewrite <- Heq. by apply Hmap.
    + by apply IH.
Qed.

(** X5: in a table with one row per key, an upsert that returns
    invalidates the old fingerprint: right after it, a lookup of the
    record's root and path under any other size or modification time
    returns nothing (and raises if that size or time does not fit 64 bits).
    An upsert that raises leaves the table as it was, and with it the row
    of the old fingerprint. *)
Theorem upsert_invalidates_other_fingerprints sqlite conn data s m :
  unique_keys conn →
  (s, m) ≠ (size_bytes data, mtime_ns data) →
  (snd (upsert_analysis sqlite conn data) = Ok tt →
   get_cached_analysis (fst (upsert_analysis sqlite conn data))
     (root data) (path data) s m
   = if fits_int64 s && fits_int64 m then Ok None else Raise OverflowError) ∧
  (∀ e, snd (upsert_analysis sqlite conn data) = Raise e →
     fst (upsert_analysis sqlite conn data) = conn).
Proof.
  intros Hu Hne. split.
  - intros Hok. unfold get_cached_analysis.
    destruct (fits_int64 s && fits_int64 m); [|done]. f_equal.
    destruct (List.find _ _) as [r|] eqn:E; [|done].
    exfalso. apply Hne.
    destruct (upsert_lookup sqlite conn data Hok) as (r0 & _ & Hcols & Hin0).
    apply List.find_some in E as [Hin Hm].
    apply same_key_fingerprint_true in Hm as (Hr & Hp & Hs & Hmt).
    assert (r = r0) as ->.
    { apply (unique_keys_inj (fst (upsert_analysis sqlite conn data))).
      - by apply unique_keys_upsert.
      - by apply list_elem_of_In.
      - done.
      - unfold key. by rewrite Hr, Hp, Hcols. }
    rewrite Hcols in Hs, Hmt. by rewrite Hs, Hmt.
  - intros e He. destruct (upsert_analysis_outcome sqlite conn data)
      as [(e' & Heq & _)|(id0 & Heq & _)]; rewrite Heq in He |- *;
      [done | discriminate].
Qed.

Lemma upsert_invalidates_other_fingerprints_witness :
  get_cached_analysis
    (fst (upsert_analysis examples.sqlite examples.table_a
            {| root := "/photos"; path := "a.jpg"; size_bytes := 1234;
               mtime_ns := 9; width := 640; height := 480; blur_score := 10;
               blur_category := "blurry"; has_person := 0; has_pet := 0;
               center_score := 0; center_category := "well_centered";
               analyzed_at := "2024-02-02T00:00:00+00:00" |}))
    "/photos" "a.jpg" 1000 5
  = Ok None.
Proof.
  refine (proj1 (upsert_invalidates_other_fingerprints examples.sqlite
                   examples.table_a
                   {| root := "/photos"; path := "a.jpg"; size_bytes := 1234;
                      mtime_ns := 9; width := 640; height := 480;
                      blur_score := 10; blur_category := "blurry";
                      has_person := 0; has_pet := 0; center_score := 0;
                      center_category := "well_centered";
                      analyzed_at := "2024-02-02T00:00:00+00:00" |} 1000 5
                   _ _) _).
  - apply (bool_decide_unpack _). vm_compute. exact I.
  - discriminate.
  - by vm_compute.
Defined.

(** X6: an upsert is local to its key, whether it returns or raises.  In a
    table with distinct ids the rows of every other key are the same before
    and after, and so is every lookup of another key. *)
Theorem upsert_touches_only_its_key sqlite conn data :
  primary_key conn →
  (∀ r, key r ≠ (root data, path data) →
        (r ∈ fst (upsert_analysis sqlite conn data) ↔ r ∈ conn)) ∧
  (∀ root0 path0 s m, (root0, path0) ≠ (root data, path data) →
     get_cached_analysis (fst (upsert_analysis sqlite conn data)) root0 path0 s m
     = get_cached_analysis conn root0 path0 s m).
Proof.
  intros Hpk. split; [|intros; by apply upsert_lookup_other].
  intros r Hne. by apply upsert_mem_other.
Qed.

Lemma upsert_touches_only_its_key_witness :
  {| id := 1; cols := examples.data_a |}
  ∈ fst (upsert_analysis examples.sqlite examples.table_a examples.data_b).
Proof.
  refine (proj2 (proj1 (upsert_touches_only_its_key examples.sqlite
                          examples.table_a examples.data_b _) _ _) _).
  - apply (bool_decide_unpack _). vm_compute. exact I.
  - discriminate.
  - left.
Defined.

(** *** Reconciliation *)






Example delete_missing_files_counts_paths :
  let twice := [ {| id := 1; cols := examples.data_a |};
                 {| id := 2; cols := examples.data_a |} ] in
  delete_missing_files examples.sqlite twice "/photos" ∅ = ([], Ok 1).
Proof. by vm_compute. Qed.

(** X8: [delete_missing_files] keeps every row of another root and every
    row whose path is in [existing_paths], whether it returns or raises.
    After a call that returned, a second call with the same arguments
    deletes nothing and returns 0; after a call that raised, a second call
    raises again. *)
Theorem delete_missing_files_idempotent sqlite conn root0 existing :
  (∀ r, root (cols r) ≠ root0 →
        (r ∈ fst (delete_missing_files sqlite conn root0 existing) ↔ r ∈ conn)) ∧
  (∀ r, r ∈ conn → path (cols r) ∈ existing →
        r ∈ fst (delete_missing_files sqlite conn root0 existing)) ∧
  (returns (snd (delete_missing_files sqlite conn root0 existing)) →
   delete_missing_files sqlite
     (fst (delete_missing_files sqlite conn root0 existing)) root0 existing
   = (fst (delete_missing_files sqlite conn root0 existing), Ok 0)) ∧
  (∀ e, snd (delete_missing_files sqlite conn root0 existing) = Raise e →
   delete_missing_files sqlite
     (fst (delete_missing_files sqlite conn root0 existing)) root0 existing
   = (conn, Raise e)).
Proof.
  split; [|split; [|split]].
  - intros r Hne.
    destruct (elem_of_delete_missing_files sqlite conn root0 existing r)
      as [H1 H2].
    split; [exact H1|]. intros Hr. apply H2; [done|]. by intros [].
  - intros r Hr Hp. apply elem_of_delete_missing_files; [done|]. by intros [].
  - destruct (delete_missing_files_outcome sqlite conn root0 existing)
      as [[-> _]|[-> _]]; cbn [fst snd]; [|by intros [? ?]].
    intros _. set (conn' := reconciled conn root0 existing).
    assert (db_paths conn' root0 ∖ existing = ∅) as Hnone.
    { pose proof (db_paths_reconciled conn root0 existing). set_solver. }
    unfold delete_missing_files. rewrite Hnone.
    rewrite bool_decide_eq_true_2 by done. by rewrite size_empty.
  - intros e. destruct (delete_missing_files_outcome sqlite conn root0 existing)
      as [[Heq _]|[Heq _]]; rewrite Heq; cbn [fst snd]; [discriminate|].
    intros [= <-]. exact Heq.
Qed.

End db_more.

(** ** More on the pipeline *)
Module pipeline_more.
Import db db_facts db_more analyze_photos pipeline_facts.

Section one_run.
Variable sqlite : Sqlite.
Variable os : util.Os.
Variable cv2 : analysis.Cv2.
Variable now : nat → string.
Variable root_path : string.
Variable force : bool.

Abbreviation step := (process_one sqlite os cv2 now root_path force).



Lemma step_unique_keys st image :
  unique_keys (conn st) → unique_keys (conn (step st image)).
Proof.
  intros Hu.
  destruct (step_conn sqlite os cv2 now root_path force st image)
    as [-> | (data & _ & _ & _ & ->)]; [done|]. by apply unique_keys_upsert.
Qed.

Lemma loop_unique_keys images st :
  unique_keys (conn st) → unique_keys (conn (fold_left step images st)).
Proof.
  revert st. induction images as [|image images IH]; intros st Hu; simpl;
    [done|]. by apply IH, step_unique_keys.
Qed.

(** The loop reads and writes rows of its own root only. *)
Lemma loop_other_root images st r :
  primary_key (conn st) → root (cols r) ≠ root_path →
  r ∈ conn (fold_left step images st) ↔ r ∈ conn st.
Proof.
  revert st. induction images as [|image images IH]; intros st Hpk Hr; simpl;
    [done|].
  rewrite IH by (by apply step_primary_key || done).
  destruct (step_conn sqlite os cv2 now root_path force st image)
    as [-> | (data & Hroot & _ & _ & ->)]; [done|].
  apply upsert_mem_other; [done|]. unfold key. rewrite Hroot. congruence.
Qed.

End one_run.







(** X12: a run keeps the two invariants of the table, whether it returns or
    raises: distinct ids and at most one row per [(root, path)]. *)
Theorem run_keeps_table_invariants
    sqlite os cv2 now conn0 input_dir extensions force :
  unique_keys conn0 → primary_key conn0 →
  unique_keys
    (fst (process_images sqlite os cv2 now conn0 input_dir extensions force)) ∧
  primary_key
    (fst (process_images sqlite os cv2 now conn0 input_dir extensions force)).
Proof.
  intros Hu Hpk. split; [|by apply process_images_primary_key].
  destruct (decide (scan os input_dir extensions = [])) as [Hempty|Hne].
  - by rewrite process_images_empty.
  - rewrite process_images_nonempty by done. cbv zeta. cbn [fst snd].
    apply unique_keys_delete_missing_files. unfold after_loop.
    by apply loop_unique_keys.
Qed.

Lemma run_keeps_table_invariants_witness :
  unique_keys (fst (examples.run [examples.a_jpg; examples.b_jpg] true
                      examples.table_ab)) ∧
  primary_key (fst (examples.run [examples.a_jpg; examples.b_jpg] true
                      examples.table_ab)).
Proof.
  apply (run_keeps_table_invariants examples.sqlite
           (examples.os [examples.a_jpg; examples.b_jpg])
           examples.cv2 examples.clock examples.table_ab "/photos" ∅ true).
  - apply (bool_decide_unpack _). vm_compute. exact I.
  - apply (bool_decide_unpack _). vm_compute. exact I.
Defined.

(** X13: a run over one root neither removes, nor changes, nor adds a row
    of another root, whether it returns or raises. *)
Theorem run_leaves_other_roots
    sqlite os cv2 now conn0 input_dir extensions force r :
  primary_key conn0 →
  root (cols r) ≠ util.resolve os input_dir →
  r ∈ fst (process_images sqlite os cv2 now conn0 input_dir extensions force) ↔
  r ∈ conn0.
Proof.
  intros Hpk Hr.
  destruct (decide (scan os input_dir extensions = [])) as [Hempty|Hne].
  - by rewrite process_images_empty.
  - rewrite process_images_nonempty by done. cbv zeta. cbn [fst snd].
    rewrite <- (loop_other_root sqlite os cv2 now (util.resolve os input_dir)
                  force (scan os input_dir extensions)
                  (start conn0 (Z.of_nat (length (scan os input_dir extensions))))
                  r Hpk Hr).
    change (fold_left _ _ _)
      with (after_loop sqlite os cv2 now conn0 input_dir extensions force).
    destruct (elem_of_delete_missing_files sqlite
                (conn (after_loop sqlite os cv2 now conn0 input_dir extensions
                         force))
                (util.resolve os input_dir)
                (existing_paths
                   (after_loop sqlite os cv2 now conn0 input_dir extensions
                      force)) r) as [H1 H2].
    split; [exact H1|]. intros Hin. apply H2; [done|]. by intros [].
Qed.

Lemma run_leaves_other_roots_witness :
  {| id := 1; cols := examples.data_a |}
  ∈ fst (analyze_photos.process_images examples.sqlite
           (examples.os [examples.b_jpg])
           examples.cv2 examples.clock examples.table_a "/other" ∅ false).
Proof.
  refine (proj2 (run_leaves_other_roots examples.sqlite
                   (examples.os [examples.b_jpg])
                   examples.cv2 examples.clock examples.table_a "/other" ∅ false
                   {| id := 1; cols := examples.data_a |} _ _) _).
  - apply (bool_decide_unpack _). vm_compute. exact I.
  - discriminate.
  - left.
Defined.

(** X14: after a run over a scan of distinct paths, from a table with room
    for a row for every image, every scanned file that can be processed has
    a row with its current size and modification time, so the next run
    finds it in the cache; and after a run over a non-empty scan that
    returns, every row of the root has a scanned path. *)
Theorem run_makes_cache_coherent
    sqlite os cv2 now conn0 input_dir extensions force :
  primary_key conn0 →
  NoDup (rel_paths (scan os input_dir extensions)) →
  room conn0 (length (scan os input_dir extensions)) →
  (∀ image, image ∈ scan os input_dir extensions →
     can_process os cv2 image = true →
     ∃ s m r,
       util.get_file_stats os (fst image) = Some (s, m) ∧
       get_cached_analysis
         (fst (process_images sqlite os cv2 now conn0 input_dir extensions force))
         (util.resolve os input_dir) (snd image) s m = Ok (Some r)) ∧
  (scan os input_dir extensions ≠ [] →
   returns (snd (process_images sqlite os cv2 now conn0 input_dir extensions
                   force)) →
   ∀ r, r ∈ fst (process_images sqlite os cv2 now conn0 input_dir extensions
                   force) →
        root (cols r) = util.resolve os input_dir →
        path (cols r) ∈ rel_paths (scan os input_dir extensions)).
Proof.
  intros Hpk Hnd Hroom. split.
  - intros image Hin Hok.
    destruct (process_images_settles sqlite os cv2 now conn0 input_dir extensions
                force Hpk Hnd Hroom image Hin) as [Hb|H]; [|exact H].
    apply broken_can_process in Hb. congruence.
  - intros Hne Hret r Hr Hroot.
    pose proof (process_images_db_paths sqlite os cv2 now conn0 input_dir
                  extensions force Hne Hret (path (cols r))) as Hsub.
    rewrite elem_of_list_to_set in Hsub. apply Hsub, elem_of_db_paths.
    exists r. split; [done|]. unfold key. by rewrite Hroot.
Qed.

Lemma run_makes_cache_coherent_witness :
  ∃ s m r,
    util.get_file_stats (examples.os [examples.a_jpg; examples.bad_jpg])
      (fst examples.a_jpg) = Some (s, m) ∧
    get_cached_analysis
      (fst (examples.run [examples.a_jpg; examples.bad_jpg] false
              [examples.row_bad]))
      "/photos" (snd examples.a_jpg) s m = Ok (Some r).
Proof.
  refine (proj1 (run_makes_cache_coherent examples.sqlite
                   (examples.os [examples.a_jpg; examples.bad_jpg]) examples.cv2
                   examples.clock [examples.row_bad] "/photos" ∅ false _ _ _)
            examples.a_jpg _ _).
  - apply (bool_decide_unpack _). vm_compute. exact I.
  - apply (bool_decide_unpack _). vm_compute. exact I.
  - by vm_compute.
  - left.
  - reflexivity.
Defined.


(** *** Failures of the database calls *)

(** X24: a file whose size or modification time does not fit 64 bits is
    counted as an error, forced or not, whatever the table holds and
    whether or not the image decodes: its path is recorded as seen, and the
    table is left as it was, so that the file has a row after the step only
    if it had one before. *)
Theorem file_that_cannot_be_bound_is_an_error
    sqlite os cv2 now root_path force st image s m :
  util.get_file_stats os (fst image) = Some (s, m) →
  fits_int64 s = false ∨ fits_int64 m = false →
  let st' := process_one sqlite os cv2 now root_path force st image in
  conn st' = conn st ∧
  errors (stats st') = errors (stats st) + 1 ∧
  analyzed (stats st') = analyzed (stats st) ∧
  cached (stats st') = cached (stats st) ∧
  existing_paths st' = {[ snd image ]} ∪ existing_paths st ∧
  broken os cv2 image.
Proof.
  intros Hs Hfits st'.
  assert (∀ a, storable s m a = false) as Hnot.
  { intros a. unfold storable. destruct Hfits as [-> | ->]; [done|].
    by rewrite andb_false_r. }
  assert (broken os cv2 image) as Hb.
  { destruct (analysis.analyze_image cv2 (fst image)) as [a|] eqn:Ha.
    - right. right. by exists s, m, a.
    - right. by left. }
  destruct (process_one_cases sqlite os cv2 now root_path force st image)
    as (Hseen & _ & [(Hc & Hst & _)|[(_ & _ & _ & s' & m' & r & Hs' & Hhit)|
                     (s' & m' & a & Hs' & _ & _ & Hup & _)]]).
  - subst st'. rewrite Hc, Hst, Hseen. repeat split; done.
  - exfalso. rewrite Hs in Hs'. injection Hs' as <- <-.
    apply get_cached_analysis_Ok in Hhit as (H1 & H2 & _).
    destruct Hfits; congruence.
  - exfalso. rewrite Hs in Hs'. injection Hs' as <- <-.
    apply upsert_analysis_Ok_bindable in Hup. rewrite storable_bindable in Hup.
    by rewrite Hnot in Hup.
Qed.

Lemma file_that_cannot_be_bound_is_an_error_witness :
  let st := start examples.table_a 1 in
  let st' :=
    process_one examples.sqlite (examples.os [examples.late_jpg]) examples.cv2
      examples.clock "/photos" true st examples.late_jpg in
  conn st' = examples.table_a ∧ errors (stats st') = 1.
Proof.
  intros st st'.
  destruct (file_that_cannot_be_bound_is_an_error examples.sqlite
              (examples.os [examples.late_jpg]) examples.cv2 examples.clock
              "/photos" true st examples.late_jpg 1000 (2 ^ 63))
    as (Hconn & Herrors & _).
  - reflexivity.
  - right. by vm_compute.
  - split; [exact Hconn | exact Herrors].
Defined.

(** X25: when the scan is not empty and the stale paths of the root are
    more than one [DELETE] can take, [process_images] raises after its
    loop: it leaves the table of the loop, in which every stale row is
    still there, and [main] returns 1, whatever the loop counted.  The
    stale paths are the same after the run, so the next run over the same
    files raises again. *)
Theorem run_with_too_many_stale_paths_raises sqlite os cv2 now conn0 args :
  util.exists_ os (input_dir args) = true →
  util.is_dir os (input_dir args) = true →
  primary_key conn0 →
  scan os (input_dir args) (extensions args) ≠ [] →
  ¬ reconcilable sqlite conn0 (util.resolve os (input_dir args))
      (scan os (input_dir args) (extensions args)) →
  let st :=
    after_loop sqlite os cv2 now conn0 (input_dir args) (extensions args)
      (force args) in
  process_images sqlite os cv2 now conn0 (input_dir args) (extensions args)
    (force args)
  = (conn st, Raise OperationalError) ∧
  main sqlite os cv2 now conn0 args = (conn st, 1) ∧
  (∀ r, r ∈ conn0 → root (cols r) = util.resolve os (input_dir args) →
        path (cols r) ∉ rel_paths (scan os (input_dir args) (extensions args)) →
        r ∈ conn st) ∧
  stale (conn st) (util.resolve os (input_dir args))
    (scan os (input_dir args) (extensions args))
  = stale conn0 (util.resolve os (input_dir args))
      (scan os (input_dir args) (extensions args)) ∧
  ¬ reconcilable sqlite (conn st) (util.resolve os (input_dir args))
      (scan os (input_dir args) (extensions args)).
Proof.
  intros Hex Hdir Hpk Hne Hnot st.
  destruct (process_images_outcome sqlite os cv2 now conn0 (input_dir args)
              (extensions args) (force args) Hne) as [[Hfits _]|[_ Hrun]];
    [done|].
  fold st in Hrun.
  assert (stale (conn st) (util.resolve os (input_dir args))
            (scan os (input_dir args) (extensions args))
          = stale conn0 (util.resolve os (input_dir args))
              (scan os (input_dir args) (extensions args))) as Hstale.
  { pose proof (after_loop_stale sqlite os cv2 now conn0 (input_dir args)
                  (extensions args) (force args)) as H. cbv zeta in H.
    rewrite after_loop_existing_paths in H. exact H. }
  split; [exact Hrun|]. split; [|split; [|split; [exact Hstale|]]].
  - rewrite main_exit_status by done. by rewrite Hrun.
  - intros r Hr Hroot Hp. subst st. unfold after_loop.
    apply loop_keeps_row; [done..|].
    intros image Hin [= _ Hpath]. destruct Hp. rewrite Hpath.
    by apply elem_of_rel_paths.
  - unfold reconcilable. rewrite Hstale. exact Hnot.
Qed.

Lemma run_with_too_many_stale_paths_raises_witness :
  let os := examples.os [examples.c_jpg] in
  main examples.sqlite_2 os examples.cv2 examples.clock examples.table_ab
    (examples.args false)
  = (conn (after_loop examples.sqlite_2 os examples.cv2 examples.clock
             examples.table_ab "/photos" ∅ false), 1) ∧
  {| id := 1; cols := examples.data_a |}
  ∈ conn (after_loop examples.sqlite_2 os examples.cv2 examples.clock
            examples.table_ab "/photos" ∅ false).
Proof.
  intros os.
  destruct (run_with_too_many_stale_paths_raises examples.sqlite_2 os
              examples.cv2 examples.clock examples.table_ab
              (examples.args false))
    as (_ & Hmain & Hkept & _).
  - reflexivity.
  - reflexivity.
  - apply (bool_decide_unpack _). vm_compute. exact I.
  - discriminate.
  - unfold reconcilable. apply (bool_decide_unpack _). vm_compute. exact I.
  - split; [exact Hmain|]. apply Hkept; [left | reflexivity|].
    apply (bool_decide_unpack _). vm_compute. exact I.
Defined.


(** *** The JSON summary *)







Lemma NoDup_paths_of_root conn root0 :
  unique_keys conn →
  NoDup (List.map (fun r => path (cols r))
           (List.filter (fun r => bool_decide (root (cols r) = root0)) conn)).
Proof.
  unfold unique_keys. induction conn as [|r conn IH]; simpl; [constructor|].
  intros [Hr Hu]%NoDup_cons. case_bool_decide as Hroot; simpl; [|by apply IH].
  apply NoDup_cons. split; [|by apply IH].
  intros Hin. apply Hr. apply list_elem_of_In in Hin.
  apply List.in_map_iff in Hin as (r' & Hp & [Hin Hr']%List.filter_In).
  apply bool_decide_eq_true in Hr'.
  replace (key r) with (key r') by (unfold key; by rewrite Hp, Hr', Hroot).
  apply list_elem_of_In, List.in_map, Hin.
Qed.

(** X23: the summary written after a run over a non-empty scan, from a
    table with one row per key, names every path at most once; and when the
    run has returned (its reconciliation was done), it names scanned paths
    only: a file removed from the directory is not in it. *)
Theorem summary_after_run_lists_scanned_files
    sqlite os cv2 now conn0 input_dir extensions force :
  unique_keys conn0 →
  scan os input_dir extensions ≠ [] →
  let run := process_images sqlite os cv2 now conn0 input_dir extensions force in
  let output := fst (write_summary_json (fst run) (util.resolve os input_dir)) in
  NoDup (List.map summary.path output) ∧
  (returns (snd run) →
   ∀ p, p ∈ List.map summary.path output →
        p ∈ rel_paths (scan os input_dir extensions)).
Proof.
  intros Hu Hne run output.
  assert (unique_keys (fst run)) as Hu1.
  { subst run. rewrite process_images_nonempty by done. cbv zeta. cbn [fst snd].
    apply unique_keys_delete_missing_files. unfold after_loop.
    by apply loop_unique_keys. }
  assert (List.map summary.path output
          = List.map (fun r => path (cols r))
              (get_all_analyses_for_root (fst run) (util.resolve os input_dir)))
    as Hpaths.
  { subst output. unfold write_summary_json. cbn [fst].
    rewrite List.map_map. reflexivity. }
  rewrite Hpaths. split.
  - assert (List.map (fun r => path (cols r))
              (get_all_analyses_for_root (fst run) (util.resolve os input_dir))
            ≡ₚ List.map (fun r => path (cols r))
                 (List.filter
                    (fun r => bool_decide (root (cols r) = util.resolve os input_dir))
                    (fst run))) as ->
      by apply Permutation_map, get_all_analyses_for_root_sorted_parts.
    by apply NoDup_paths_of_root.
  - intros Hret p Hp.
    apply list_elem_of_In, List.in_map_iff in Hp as (r & <- & Hr).
    apply list_elem_of_In, elem_of_get_all_analyses_for_root in Hr as [Hr Hroot].
    pose proof (process_images_db_paths sqlite os cv2 now conn0 input_dir
                  extensions force Hne Hret (path (cols r))) as Hsub.
    rewrite elem_of_list_to_set in Hsub. apply Hsub, elem_of_db_paths.
    exists r. split; [done|]. unfold key. by rewrite Hroot.
Qed.

Lemma summary_after_run_lists_scanned_files_witness :
  let run := examples.run [examples.b_jpg] false examples.table_ab in
  let output := fst (write_summary_json (fst run) "/photos") in
  NoDup (List.map summary.path output) ∧
  ∀ p, p ∈ List.map summary.path output → p ∈ ["b.jpg"].
Proof.
  intros run output.
  destruct (summary_after_run_lists_scanned_files examples.sqlite
              (examples.os [examples.b_jpg])
              examples.cv2 examples.clock examples.table_ab "/photos" ∅ false)
    as [Hnd Hscanned].
  - apply (bool_decide_unpack _). vm_compute. exact I.
  - discriminate.
  - split; [exact Hnd|]. apply Hscanned. eexists. by vm_compute.
Defined.

End pipeline_more.

(** ** The comparison with human labels *)
Module labels_facts.
Import compare_labels.

Lemma count_cells (human auto : bool) (c : Confusion) :
  matrix_total (count human auto c) = matrix_total c + 1 ∧
  fp (count human auto c) = fp c + (if negb human && auto then 1 else 0) ∧
  fn (count human auto c) = fn c + (if human && negb auto then 1 else 0) ∧
  tp (count human auto c) = tp c + (if human && auto then 1 else 0) ∧
  tn (count human auto c) = tn c + (if negb human && negb auto then 1 else 0).
Proof. unfold matrix_total, count. destruct human, auto; simpl; lia. Qed.

Lemma note_lists (human auto : bool) (filename : string) (fps fns : list string) :
  fst (note human auto filename fps fns)
  = fps ++ (if negb human && auto then [filename] else []) ∧
  snd (note human auto filename fps fns)
  = fns ++ (if human && negb auto then [filename] else []).
Proof.
  unfold note. destruct human, auto; simpl; by rewrite ?app_nil_r.
Qed.

(** One step of the loop, for a photo with an automated result. *)
Lemma compare_one_found auto_results acc filename label a :
  auto_results !! filename = Some a →
  let acc' := compare_one auto_results acc (filename, label) in
  person (fst acc')
  = count (has_person label) (analysis.has_person a) (person (fst acc)) ∧
  cat (fst acc')
  = count (has_cat label) (analysis.has_pet a) (cat (fst acc)) ∧
  person_fp (snd acc')
  = person_fp (snd acc)
    ++ (if negb (has_person label) && analysis.has_person a then [filename] else []) ∧
  person_fn (snd acc')
  = person_fn (snd acc)
    ++ (if has_person label && negb (analysis.has_person a) then [filename] else []) ∧
  cat_fp (snd acc')
  = cat_fp (snd acc)
    ++ (if negb (has_cat label) && analysis.has_pet a then [filename] else []) ∧
  cat_fn (snd acc')
  = cat_fn (snd acc)
    ++ (if has_cat label && negb (analysis.has_pet a) then [filename] else []).
Proof.
  intros Ha. destruct acc as [categories mismatches]. unfold compare_one.
  rewrite Ha. cbv zeta.
  pose proof (note_lists (has_person label) (analysis.has_person a) filename
                (person_fp mismatches) (person_fn mismatches)) as [Hp1 Hp2].
  pose proof (note_lists (has_cat label) (analysis.has_pet a) filename
                (cat_fp mismatches) (cat_fn mismatches)) as [Hc1 Hc2].
  destruct (note (has_person label) _ _ _ _) as [p_fp p_fn].
  destruct (note (has_cat label) _ _ _ _) as [c_fp c_fn].
  simpl in *. by subst.
Qed.

Lemma compare_one_missing auto_results acc filename label :
  auto_results !! filename = None →
  compare_one auto_results acc (filename, label) = acc.
Proof.
  intros Hnone. destruct acc as [categories mismatches]. unfold compare_one.
  by rewrite Hnone.
Qed.

(** What the loop adds to the counters and to the lists. *)
Lemma compare_fold auto_results human_labels acc :
  let acc' := fold_left (compare_one auto_results) human_labels acc in
  let n := Z.of_nat (length (compared human_labels auto_results)) in
  matrix_total (person (fst acc')) = matrix_total (person (fst acc)) + n ∧
  matrix_total (cat (fst acc')) = matrix_total (cat (fst acc)) + n ∧
  fp (person (fst acc')) - Z.of_nat (length (person_fp (snd acc')))
  = fp (person (fst acc)) - Z.of_nat (length (person_fp (snd acc))) ∧
  fn (person (fst acc')) - Z.of_nat (length (person_fn (snd acc')))
  = fn (person (fst acc)) - Z.of_nat (length (person_fn (snd acc))) ∧
  fp (cat (fst acc')) - Z.of_nat (length (cat_fp (snd acc')))
  = fp (cat (fst acc)) - Z.of_nat (length (cat_fp (snd acc))) ∧
  fn (cat (fst acc')) - Z.of_nat (length (cat_fn (snd acc')))
  = fn (cat (fst acc)) - Z.of_nat (length (cat_fn (snd acc))) ∧
  tp (person (fst acc)) ≤ tp (person (fst acc')) ∧
  tn (person (fst acc)) ≤ tn (person (fst acc')) ∧
  tp (cat (fst acc)) ≤ tp (cat (fst acc')) ∧
  tn (cat (fst acc)) ≤ tn (cat (fst acc')).
Proof.
  revert acc. induction human_labels as [|[filename label] labels IH];
    intros acc; cbn [fold_left].
  - simpl. lia.
  - specialize (IH (compare_one auto_results acc (filename, label))).
    cbv zeta in *. unfold compared in *. cbn [List.filter fst].
    destruct (auto_results !! filename) as [a|] eqn:Ha.
    + rewrite bool_decide_eq_true_2 by (by eexists). rewrite length_cons.
      destruct (compare_one_found auto_results acc filename label a Ha)
        as (Hp & Hc & Hpfp & Hpfn & Hcfp & Hcfn).
      cbv zeta in *. rewrite Hp, Hc, Hpfp, Hpfn, Hcfp, Hcfn in IH.
      rewrite !length_app in IH.
      pose proof (count_cells (has_person label) (analysis.has_person a)
                    (person (fst acc))) as (? & ? & ? & ? & ?).
      pose proof (count_cells (has_cat label) (analysis.has_pet a)
                    (cat (fst acc))) as (? & ? & ? & ? & ?).
      destruct (has_person label), (analysis.has_person a), (has_cat label),
        (analysis.has_pet a); simpl in *; lia.
    + rewrite bool_decide_eq_false_2 by (by intros [? ?]).
      rewrite (compare_one_missing auto_results acc filename label Ha) in IH |- *.
      exact IH.
Qed.

(** X18: [compare_results] counts every labelled photo that has an
    automated result exactly once in the person matrix and once in the cat
    matrix, and no other photo; no cell is negative; and each list of
    mismatches is as long as the cell it belongs to. *)
Theorem compare_results_counts_each_photo_once
    (human_labels : list (string * Label))
    (auto_results : gmap string analysis.Analysis) :
  let categories := fst (compare_results human_labels auto_results) in
  let mismatches := snd (compare_results human_labels auto_results) in
  let n := Z.of_nat (length (compared human_labels auto_results)) in
  matrix_total (person categories) = n ∧
  matrix_total (cat categories) = n ∧
  fp (person categories) = Z.of_nat (length (person_fp mismatches)) ∧
  fn (person categories) = Z.of_nat (length (person_fn mismatches)) ∧
  fp (cat categories) = Z.of_nat (length (cat_fp mismatches)) ∧
  fn (cat categories) = Z.of_nat (length (cat_fn mismatches)) ∧
  0 ≤ tp (person categories) ∧ 0 ≤ tn (person categories) ∧
  0 ≤ tp (cat categories) ∧ 0 ≤ tn (cat categories).
Proof.
  unfold compare_results.
  pose proof (compare_fold auto_results human_labels
                ({| person := {| tp := 0; fp := 0; tn := 0; fn := 0 |};
                    cat := {| tp := 0; fp := 0; tn := 0; fn := 0 |} |},
                 {| person_fp := []; person_fn := []; cat_fp := []; cat_fn := [] |}))
    as H.
  cbv zeta in *. unfold matrix_total in *. simpl in H. lia.
Qed.

(** What the loop appends to the lists of mismatches. *)
Lemma compare_fold_lists auto_results human_labels acc :
  let acc' := fold_left (compare_one auto_results) human_labels acc in
  person_fp (snd acc')
  = person_fp (snd acc)
    ++ disagreements has_person analysis.has_person false true
         human_labels auto_results ∧
  person_fn (snd acc')
  = person_fn (snd acc)
    ++ disagreements has_person analysis.has_person true false
         human_labels auto_results ∧
  cat_fp (snd acc')
  = cat_fp (snd acc)
    ++ disagreements has_cat analysis.has_pet false true
         human_labels auto_results ∧
  cat_fn (snd acc')
  = cat_fn (snd acc)
    ++ disagreements has_cat analysis.has_pet true false
         human_labels auto_results.
Proof.
  revert acc. induction human_labels as [|[filename label] labels IH];
    intros acc; cbn [fold_left]; cbv zeta.
  - unfold disagreements. simpl. by rewrite !app_nil_r.
  - specialize (IH (compare_one auto_results acc (filename, label))).
    cbv zeta in IH. destruct IH as (-> & -> & -> & ->).
    unfold disagreements. cbn [List.filter fst snd].
    destruct (auto_results !! filename) as [a|] eqn:Ha.
    + destruct (compare_one_found auto_results acc filename label a Ha)
        as (_ & _ & -> & -> & -> & ->).
      rewrite <- !app_assoc.
      destruct (has_person label), (analysis.has_person a), (has_cat label),
        (analysis.has_pet a); simpl; done.
    + by rewrite (compare_one_missing auto_results acc filename label Ha).
Qed.

(** X19: each list of mismatches holds, in the order of the labels, the
    names of the labelled photos with an automated result on which the two
    answers differ: [person_fp] those with no person in the label and a
    detected face, [person_fn] those with a person in the label and no
    detected face, and [cat_fp], [cat_fn] the same for [has_cat] against
    [has_pet]. *)
Theorem compare_results_mismatch_lists
    (human_labels : list (string * Label))
    (auto_results : gmap string analysis.Analysis) :
  let mismatches := snd (compare_results human_labels auto_results) in
  person_fp mismatches
  = disagreements has_person analysis.has_person false true
      human_labels auto_results ∧
  person_fn mismatches
  = disagreements has_person analysis.has_person true false
      human_labels auto_results ∧
  cat_fp mismatches
  = disagreements has_cat analysis.has_pet false true
      human_labels auto_results ∧
  cat_fn mismatches
  = disagreements has_cat analysis.has_pet true false
      human_labels auto_results.
Proof.
  unfold compare_results.
  apply (compare_fold_lists auto_results human_labels
           ({| person := {| tp := 0; fp := 0; tn := 0; fn := 0 |};
               cat := {| tp := 0; fp := 0; tn := 0; fn := 0 |} |},
            {| person_fp := []; person_fn := []; cat_fp := []; cat_fn := [] |})).
Qed.

(** The loop of [run_automated_analysis] from any dictionary. *)
Lemma run_fold cv2 (image_files : list (string * string))
    (results0 : gmap string analysis.Analysis) :
  NoDup (List.map snd image_files) →
  let results :=
    fold_left
      (fun results image_file =>
         let '(image_path, name) := image_file in
         match analysis.analyze_image cv2 image_path with
         | Some result => <[ name := result ]> results
         | None => results
         end)
      image_files results0 in
  (∀ image_path name, (image_path, name) ∈ image_files →
     results !! name
     = match analysis.analyze_image cv2 image_path with
       | Some result => Some result
       | None => results0 !! name
       end) ∧
  (∀ name, name ∉ List.map snd image_files → results !! name = results0 !! name).
Proof.
  revert results0.
  induction image_files as [|[image_path0 name0] files IH]; intros results0 Hnd;
    cbn [fold_left]; cbv zeta.
  - split; [|done]. intros ? ? H. by apply elem_of_nil in H.
  - simpl in Hnd. apply NoDup_cons in Hnd as [Hnew Hnd].
    set (results1 :=
           match analysis.analyze_image cv2 image_path0 with
           | Some result => <[ name0 := result ]> results0
           | None => results0
           end).
    destruct (IH results1 Hnd) as [IHin IHout]. cbv zeta in *.
    assert (∀ name, name ≠ name0 → results1 !! name = results0 !! name) as Hother.
    { intros name Hne. unfold results1.
      destruct (analysis.analyze_image cv2 image_path0); [|done].
      by rewrite lookup_insert_ne. }
    split.
    + intros image_path name [[= -> ->]|Hin]%elem_of_cons.
      * rewrite IHout by done. unfold results1.
        destruct (analysis.analyze_image cv2 image_path0); [|done].
        by rewrite lookup_insert_eq.
      * rewrite (IHin image_path name Hin). rewrite Hother; [done|].
        intros ->. apply Hnew.
        apply list_elem_of_In, (List.in_map snd _ (image_path, name0)),
          list_elem_of_In, Hin.
    + intros name Hout. simpl in Hout. apply not_elem_of_cons in Hout as [Hne Hout].
      rewrite IHout by done. by apply Hother.
Qed.

(** X20: over files of distinct names, [run_automated_analysis] returns the
    dictionary that holds, under the name of every file that
    [analyze_image] loads, the result of that file, and no entry for a file
    that does not load or for any other name: one bad file does not keep
    the others from being analyzed. *)
Theorem run_automated_analysis_results cv2 (image_files : list (string * string)) :
  NoDup (List.map snd image_files) →
  (∀ image_path name, (image_path, name) ∈ image_files →
     run_automated_analysis cv2 image_files !! name
     = analysis.analyze_image cv2 image_path) ∧
  (∀ name, name ∉ List.map snd image_files →
     run_automated_analysis cv2 image_files !! name = None).
Proof.
  intros Hnd. unfold run_automated_analysis.
  destruct (run_fold cv2 image_files ∅ Hnd) as [Hin Hout]. cbv zeta in *.
  split.
  - intros image_path name H. rewrite (Hin image_path name H).
    by destruct (analysis.analyze_image cv2 image_path).
  - intros name H. by rewrite Hout.
Qed.

Lemma run_automated_analysis_results_witness :
  run_automated_analysis examples.cv2 [examples.bad_jpg; examples.a_jpg] !! "a.jpg"
  = analysis.analyze_image examples.cv2 "/photos/a.jpg" ∧
  run_automated_analysis examples.cv2 [examples.bad_jpg; examples.a_jpg] !! "bad.jpg"
  = None.
Proof.
  assert (NoDup (List.map snd [examples.bad_jpg; examples.a_jpg])) as Hnd
    by (apply (bool_decide_unpack _); vm_compute; exact I).
  destruct (run_automated_analysis_results examples.cv2
              [examples.bad_jpg; examples.a_jpg] Hnd) as [Hin _].
  split.
  - apply (Hin "/photos/a.jpg" "a.jpg"). right. left.
  - apply (Hin "/photos/bad.jpg" "bad.jpg"). left.
Defined.

End labels_facts.

(** ** The extension list *)
Module util_facts.
Import Stdlib.Strings.Ascii.
Import util.

Lemma lower_char_idem (c : ascii) : lower_char (lower_char c) = lower_char c.
Proof. destruct c as [[] [] [] [] [] [] [] []]; by vm_compute. Qed.

Lemma isspace_lower_char (c : ascii) : isspace (lower_char c) = isspace c.
Proof. destruct c as [[] [] [] [] [] [] [] []]; by vm_compute. Qed.

Lemma lower_char_is (c d : ascii) :
  lower_char d = d → (N_of_ascii d <? 65)%N = true →
  lower_char c = d ↔ c = d.
Proof.
  intros Hd Hlow. split; [|by intros ->].
  intros <-. revert Hlow.
  destruct c as [[] [] [] [] [] [] [] []]; vm_compute; done.
Qed.

Lemma lower_idem (s : string) : lower (lower s) = lower s.
Proof.
  induction s as [|c s IH]; simpl; [done|]. by rewrite lower_char_idem, IH.
Qed.

Lemma lower_empty (s : string) : lower s = EmptyString ↔ s = EmptyString.
Proof. by destruct s. Qed.

Lemma lstrip_lower (s : string) : lstrip (lower s) = lower (lstrip s).
Proof.
  induction s as [|c s IH]; simpl; [done|].
  rewrite isspace_lower_char. by destruct (isspace c).
Qed.

Lemma rstrip_lower (s : string) : rstrip (lower s) = lower (rstrip s).
Proof.
  induction s as [|c s IH]; simpl; [done|].
  rewrite IH, isspace_lower_char.
  destruct (rstrip s); simpl; [by destruct (isspace c) | done].
Qed.

Lemma strip_lower (s : string) : strip (lower s) = lower (strip s).
Proof. unfold strip. by rewrite lstrip_lower, rstrip_lower. Qed.

Lemma split_lower (sep : ascii) (s : string) :
  lower_char sep = sep → (N_of_ascii sep <? 65)%N = true →
  split sep (lower s) = List.map lower (split sep s).
Proof.
  intros Hsep Hlow. induction s as [|c s IH]; simpl; [done|].
  rewrite IH.
  rewrite (bool_decide_ext (lower_char c = sep) (c = sep))
    by (by apply lower_char_is).
  case_bool_decide; [done|].
  by destruct (split sep s).
Qed.

Lemma startswith_dot_lower (s : string) :
  startswith_dot (lower s) = startswith_dot s.
Proof.
  destruct s as [|c s]; simpl; [done|]. apply bool_decide_ext.
  by apply lower_char_is.
Qed.

Lemma add_extension_extension_of (extensions : gset string) (piece : string) :
  add_extension extensions piece
  = match extension_of piece with
    | Some ext => {[ ext ]} ∪ extensions
    | None => extensions
    end.
Proof.
  unfold add_extension, extension_of. cbv zeta. by case_bool_decide.
Qed.

Lemma elem_of_fold_add_extension (pieces : list string) (acc : gset string) e :
  e ∈ fold_left add_extension pieces acc ↔
  e ∈ acc ∨ ∃ piece, piece ∈ pieces ∧ extension_of piece = Some e.
Proof.
  revert acc. induction pieces as [|piece pieces IH]; intros acc; simpl.
  - split; [by left|]. intros [?|(? & H & _)]; [done|]. by apply elem_of_nil in H.
  - rewrite IH, add_extension_extension_of. split.
    + intros [H|(p & Hp & He)].
      * destruct (extension_of piece) as [ext|] eqn:E; [|by left].
        apply elem_of_union in H as [->%elem_of_singleton|H]; [|by left].
        right. exists piece. split; [by left | done].
      * right. exists p. split; [by right | done].
    + intros [H|(p & [->|Hp]%elem_of_cons & He)].
      * left. destruct (extension_of piece); [|done].
        apply elem_of_union. by right.
      * left. rewrite He. apply elem_of_union. left. by apply elem_of_singleton.
      * right. by exists p.
Qed.

Lemma extension_of_normal (piece e : string) :
  extension_of piece = Some e →
  startswith_dot e = true ∧ lower e = e ∧ e ≠ EmptyString.
Proof.
  unfold extension_of. cbv zeta. case_bool_decide as Hne; [done|].
  intros [= <-].
  destruct (startswith_dot (lower (strip piece))) eqn:Hdot.
  - split; [done|]. split; [apply lower_idem | done].
  - split; [by vm_compute|]. split; [|done].
    cbn [lower]. rewrite lower_idem. f_equal.
Qed.

(** X21: for an ASCII extension list, the set [parse_extensions] returns
    holds exactly the extensions of the non-blank pieces between the
    commas; every element starts with a dot, has no upper-case letter and
    is not empty, so blank pieces and letter case never reach the set. *)
Theorem parse_extensions_normalizes (extensions_str : string) :
  is_ascii_text extensions_str = true →
  ∀ e, (e ∈ parse_extensions extensions_str ↔
        ∃ piece, piece ∈ split ","%char extensions_str ∧
                 extension_of piece = Some e) ∧
       (e ∈ parse_extensions extensions_str →
        startswith_dot e = true ∧ lower e = e ∧ e ≠ EmptyString).
Proof.
  intros _ e. unfold parse_extensions.
  rewrite elem_of_fold_add_extension. split.
  - split; [intros [H|H]; [by apply not_elem_of_empty in H | done] | by right].
  - intros [H|(piece & _ & He)]; [by apply not_elem_of_empty in H|].
    by apply (extension_of_normal piece).
Qed.

Lemma parse_extensions_normalizes_witness :
  ".jpg"%string ∈ parse_extensions " JPG, .Png ,,jpeg"%string ∧
  startswith_dot ".jpg" = true.
Proof.
  destruct (parse_extensions_normalizes " JPG, .Png ,,jpeg"%string eq_refl
              ".jpg"%string) as [Hmem Hnorm].
  assert (".jpg"%string ∈ parse_extensions " JPG, .Png ,,jpeg"%string) as Hin.
  { apply Hmem. exists " JPG"%string. split; [left | reflexivity]. }
  split; [exact Hin | exact (proj1 (Hnorm Hin))].
Defined.

(** X22: [parse_extensions] does not depend on the case of the letters: an
    ASCII list and the same list in lower case give the same set. *)
Theorem parse_extensions_ignores_case (extensions_str : string) :
  is_ascii_text extensions_str = true →
  parse_extensions (lower extensions_str) = parse_extensions extensions_str.
Proof.
  intros _. apply set_eq. intros e. unfold parse_extensions.
  rewrite !elem_of_fold_add_extension, split_lower by done.
  assert (∀ piece, extension_of (lower piece) = extension_of piece) as Hext.
  { intros piece. unfold extension_of. by rewrite strip_lower, lower_idem. }
  split; (intros [H|(piece & Hin & He)]; [by left | right]).
  - apply list_elem_of_In, List.in_map_iff in Hin as (piece0 & <- & Hin).
    exists piece0. split; [by apply list_elem_of_In | by rewrite <- Hext].
  - exists (lower piece). split; [|by rewrite Hext].
    by apply list_elem_of_In, List.in_map, list_elem_of_In.
Qed.

Lemma parse_extensions_ignores_case_witness :
  parse_extensions (lower "JPG,.Png"%string) = parse_extensions "JPG,.Png"%string.
Proof. exact (parse_extensions_ignores_case "JPG,.Png"%string eq_refl). Defined.

End util_facts.
